(** * Pys2Playlist: the signalling playlist of pybass3

    A shallow embedding of [src/pybass3/pys2_playlist.py].  The class
    [Pys2Playlist] extends the plain [Playlist] with Qt signals and with the
    timer callback [tick] that repeats, cross-fades or advances the current
    song.  The superclass [Playlist], the [Song] class and [PlaylistMode] live
    in other modules of the package; their operations enter this development
    as the interface [PlaylistBase], and one instance of it is written after
    the specification so that the methods can be run on concrete playlists. *)

From stdpp Require Import base decidable option numbers strings list functions.
From Stdlib Require Import ZArith Lia.

#[local] Open Scope Z_scope.
#[local] Set Warnings "-register-all".

(** ** Data model *)

(** A song is referred to by its identity, the [id] string that the signals
    carry; two references to the same song are the same identity. *)
Abbreviation SongId := string.

(** Modelled from the spec: [PlaylistMode] is declared in [playlist.py]; the
    specification lists the three modes, and [tick] names [loop_single]. *)
Inductive PlaylistMode : Set :=
| sequential
| random
| loop_single.

#[global] Instance PlaylistMode_eq_dec : EqDecision PlaylistMode.
Proof. solve_decision. Defined.

(** Modelled from the spec: the readable state of a track handle ([Song] is
    declared in another module of the package).  Remaining data is counted in bytes, remaining
    time in the time unit of [fade_in]; the playlist only compares them. *)
Record Song : Set := mkSong {
  length_bytes : Z;
  length_seconds : Z;
  byte_rate : Z;
  remaining_bytes : Z;
  remaining_seconds : Z;
  is_playing : bool
}.

(** The calls the playlist makes on a track handle. *)
Inductive HandleCall : Set :=
| h_play
| h_stop
| h_free_stream
| h_move2position_seconds (secs : Z).

#[global] Instance HandleCall_eq_dec : EqDecision HandleCall.
Proof. solve_decision. Defined.

(** The state the superclass [Playlist] owns.  [current], [fadein_song],
    [queue_position], [play_mode], [fade_in] and [VALID_TYPES] are the
    attributes that [Pys2Playlist] reads and writes; [queue] and [draws] (the
    pseudo-random numbers still to come) serve the superclass only.  [songs]
    is the store of track objects by identity, so that [current],
    [fadein_song] and the queue may alias one track.  [handle_log] records,
    in order, every call made on a track handle. *)
Record Core : Type := mkCore {
  songs : SongId -> Song;
  queue : list SongId;
  queue_position : Z;
  play_mode : PlaylistMode;
  fade_in : Z;
  current : option SongId;
  fadein_song : option SongId;
  VALID_TYPES : list string;
  draws : list nat;
  handle_log : list (SongId * HandleCall)
}.

(** The Qt signals of [Pys2Playlist] (lines 25-34). *)
Inductive Signal : Set :=
| song_added (song_id : SongId)
| songs_added (index_position : Z) (song_ids : list SongId)
| song_changed (song_id : SongId)
| music_paused (song_id : SongId)
| music_playing (song_id : SongId)
| music_stopped (song_id : SongId)
| queue_changed
| ticked.

#[global] Instance Signal_eq_dec : EqDecision Signal.
Proof. solve_decision. Defined.

(** A [Pys2Playlist] object: the superclass state, the signals emitted so far
    (oldest first) and whether the [QTimer] is running. *)
Record Pys2Playlist : Type := mkPlaylist {
  base : Core;
  emitted : list Signal;
  ticker_active : bool
}.

(** The exceptions that can leave [add_song] and [add_directory]:
    [add_directory] catches [TypeError] and lets every other one through. *)
Inductive Exn : Set :=
| TypeError
| DuplicateId
| NotADirectoryError.

#[global] Instance Exn_eq_dec : EqDecision Exn.
Proof. solve_decision. Defined.

Inductive Result (A : Type) : Type :=
| returned (a : A)
| raised (e : Exn).
Arguments returned {A} a.
Arguments raised {A} e.

(** What [dir_path.iterdir()] yields: regular files with their suffix,
    sub-directories with their own entries, and anything else. *)
Inductive DirEntry : Type :=
| fs_file (path : string) (suffix : string)
| fs_dir (path : string) (children : list DirEntry)
| fs_other (path : string).

(** ** Field updates *)

Definition set_songs (h : SongId -> Song) (c : Core) : Core :=
  mkCore h (queue c) (queue_position c) (play_mode c) (fade_in c)
         (current c) (fadein_song c) (VALID_TYPES c) (draws c) (handle_log c).

Definition set_queue (q : list SongId) (c : Core) : Core :=
  mkCore (songs c) q (queue_position c) (play_mode c) (fade_in c)
         (current c) (fadein_song c) (VALID_TYPES c) (draws c) (handle_log c).

Definition set_queue_position (n : Z) (c : Core) : Core :=
  mkCore (songs c) (queue c) n (play_mode c) (fade_in c)
         (current c) (fadein_song c) (VALID_TYPES c) (draws c) (handle_log c).

Definition set_current (o : option SongId) (c : Core) : Core :=
  mkCore (songs c) (queue c) (queue_position c) (play_mode c) (fade_in c)
         o (fadein_song c) (VALID_TYPES c) (draws c) (handle_log c).

Definition set_fadein_song (o : option SongId) (c : Core) : Core :=
  mkCore (songs c) (queue c) (queue_position c) (play_mode c) (fade_in c)
         (current c) o (VALID_TYPES c) (draws c) (handle_log c).

Definition set_draws (d : list nat) (c : Core) : Core :=
  mkCore (songs c) (queue c) (queue_position c) (play_mode c) (fade_in c)
         (current c) (fadein_song c) (VALID_TYPES c) d (handle_log c).

Definition set_handle_log (l : list (SongId * HandleCall)) (c : Core) : Core :=
  mkCore (songs c) (queue c) (queue_position c) (play_mode c) (fade_in c)
         (current c) (fadein_song c) (VALID_TYPES c) (draws c) l.

Definition set_base (c : Core) (s : Pys2Playlist) : Pys2Playlist :=
  mkPlaylist c (emitted s) (ticker_active s).

Definition on_base (f : Core -> Core) (s : Pys2Playlist) : Pys2Playlist :=
  set_base (f (base s)) s.

(** [signal.emit(...)]. *)
Definition emit (sig : Signal) (s : Pys2Playlist) : Pys2Playlist :=
  mkPlaylist (base s) (emitted s ++ [sig]) (ticker_active s).

(** [self.ticker.start()] and [self.ticker.stop()]. *)
Definition ticker_start (s : Pys2Playlist) : Pys2Playlist :=
  mkPlaylist (base s) (emitted s) true.

Definition ticker_stop (s : Pys2Playlist) : Pys2Playlist :=
  mkPlaylist (base s) (emitted s) false.

(** ** The track handle *)

(** Modelled from the spec: what a call does to the readable state of a track
    ([Song] is declared in another module): [play] and [stop] set [is_playing],
    a seek resets the remaining data and time, [free_stream] releases the
    stream and leaves the readings alone. *)
Definition apply_call (hc : HandleCall) (t : Song) : Song :=
  match hc with
  | h_play =>
      mkSong (length_bytes t) (length_seconds t) (byte_rate t)
             (remaining_bytes t) (remaining_seconds t) true
  | h_stop =>
      mkSong (length_bytes t) (length_seconds t) (byte_rate t)
             (remaining_bytes t) (remaining_seconds t) false
  | h_free_stream => t
  | h_move2position_seconds secs =>
      mkSong (length_bytes t) (length_seconds t) (byte_rate t)
             (length_bytes t - secs * byte_rate t) (length_seconds t - secs)
             (is_playing t)
  end.

(** A method call [song.m()] on the track [id]: the track's state changes in
    the store and the call is logged. *)
Definition call (id : SongId) (hc : HandleCall) (c : Core) : Core :=
  set_handle_log (handle_log c ++ [(id, hc)])
    (set_songs (<[id := apply_call hc (songs c id)]> (songs c)) c).

(** ** The superclass interface *)

(** The methods and attributes of [Playlist] (declared in [playlist.py]) that
    [Pys2Playlist] reaches through [super()] or [self].  They act on the
    superclass state only: the plain playlist has no signals and no timer. *)
Class PlaylistBase : Type := {
  super_next : Core -> option SongId * Core;
  super_previous : Core -> option SongId * Core;
  super_play : Core -> Core;
  upcoming : Core -> option SongId;
  super_add_song : string -> Core -> Result (option SongId) * Core;
  base_len : Core -> Z
}.

(** ** The methods of [Pys2Playlist] *)

Section Methods.
Context {B : PlaylistBase}.

(** [Pys2Playlist.add_song] (lines 47-53). *)
Definition add_song (song_path : string) (supress_emit : bool) (s : Pys2Playlist)
  : Result (option SongId) * Pys2Playlist :=
  let '(song, b) := super_add_song song_path (base s) in
  let s1 := set_base b s in
  match song with
  | returned (Some id) =>
      (song, if supress_emit then s1 else emit (song_added id) s1)
  | _ => (song, s1)
  end.

(** The loop over [files] (lines 71-77): the generator keeps the regular
    files whose suffix is in [VALID_TYPES], and a [TypeError] of [add_song] is
    swallowed. *)
Fixpoint add_files (entries : list DirEntry) (surpress_emit : bool)
    (song_ids : list SongId) (s : Pys2Playlist)
  : Result (list SongId) * Pys2Playlist :=
  match entries with
  | [] => (returned song_ids, s)
  | fs_file song_path suffix :: rest =>
      if bool_decide (suffix ∈ VALID_TYPES (base s))
      then
        let '(song, s1) := add_song song_path surpress_emit s in
        match song with
        | returned (Some id) => add_files rest surpress_emit (song_ids ++ [id]) s1
        | returned None => add_files rest surpress_emit song_ids s1
        | raised TypeError => add_files rest surpress_emit song_ids s1
        | raised e => (raised e, s1)
        end
      else add_files rest surpress_emit song_ids s
  | _ :: rest => add_files rest surpress_emit song_ids s
  end.

(** The loop over [dirs] (lines 81-83): every sub-directory is walked by
    [walk], and the ids it returns extend [song_ids]. *)
Definition add_subdirectories
    (walk : DirEntry -> Pys2Playlist -> Result (Z * list SongId) * Pys2Playlist)
  : list DirEntry -> list SongId -> Pys2Playlist ->
    Result (list SongId) * Pys2Playlist :=
  fix subdirs (entries : list DirEntry) (song_ids : list SongId)
      (s : Pys2Playlist) {struct entries} :=
    match entries with
    | [] => (returned song_ids, s)
    | fdir :: rest =>
        match fdir with
        | fs_dir _ _ =>
            let '(r, s1) := walk fdir s in
            match r with
            | returned (_, sub_song_ids) =>
                subdirs rest (song_ids ++ sub_song_ids) s1
            | raised e => (raised e, s1)
            end
        | _ => subdirs rest song_ids s
        end
    end.

(** [Pys2Playlist.add_directory] (lines 55-88).  The recursive call passes
    [fdir] and [recurse] only: [top] and [surpress_emit] take their defaults,
    [False] and [True].  Listing a path that is no directory raises. *)
Fixpoint add_directory (dir_path : DirEntry) (recurse top surpress_emit : bool)
    (s : Pys2Playlist) {struct dir_path}
  : Result (Z * list SongId) * Pys2Playlist :=
  match dir_path with
  | fs_dir _ children =>
      let index_position := if top then base_len (base s) + 1 else -1 in
      let '(r1, s1) := add_files children surpress_emit [] s in
      match r1 with
      | raised e => (raised e, s1)
      | returned song_ids =>
          let '(r2, s2) :=
            if recurse
            then
              add_subdirectories
                (fun fdir s => add_directory fdir recurse false true s)
                children song_ids s1
            else (returned song_ids, s1) in
          match r2 with
          | raised e => (raised e, s2)
          | returned song_ids =>
              let s3 :=
                if top && surpress_emit
                then emit (songs_added index_position song_ids) s2
                else s2 in
              (returned (index_position, song_ids), s3)
          end
      end
  | _ => (raised NotADirectoryError, s)
  end.

(** [Pys2Playlist.play] (lines 92-105). *)
Definition play (s : Pys2Playlist) : Pys2Playlist :=
  let new_song := bool_decide (current (base s) = None) in
  let s1 := on_base super_play s in
  let s2 :=
    match current (base s1) with
    | Some c =>
        if is_playing (songs (base s1) c)
        then ticker_start (emit (music_playing c) s1)
        else s1
    | None => s1
    end in
  match current (base s2) with
  | Some c => if new_song then emit (song_changed c) s2 else s2
  | None => s2
  end.

(** [Pys2Playlist.previous] (lines 149-154).  The method has no [return]
    statement: its value is [None]. *)
Definition previous (s : Pys2Playlist) : option SongId * Pys2Playlist :=
  let '(result, b) := super_previous (base s) in
  let s1 := set_base b s in
  match result with
  | Some r => (None, emit (song_changed r) s1)
  | None => (None, s1)
  end.

(** [Pys2Playlist.next] (lines 156-163). *)
Definition next (s : Pys2Playlist) : option SongId * Pys2Playlist :=
  let '(result, b) := super_next (base s) in
  let s1 := set_base b s in
  match result with
  | Some r => (result, emit (song_changed r) s1)
  | None => (result, s1)
  end.

(** [Pys2Playlist.tick] (lines 166-207).  The attribute [self.upcoming] is
    read at line 192 and again at line 194; [next] at line 201 is the
    overriding method above. *)
Definition tick (s : Pys2Playlist) : Pys2Playlist :=
  match current (base s) with
  | None => ticker_stop s
  | Some cur =>
      let remaining := remaining_bytes (songs (base s) cur) in
      let remaining_secs := remaining_seconds (songs (base s) cur) in
      let s' :=
        if bool_decide (play_mode (base s) = loop_single) && (remaining <=? 0)
        then
          emit (song_changed cur) (on_base (call cur (h_move2position_seconds 0)) s)
        else if (0 <? fade_in (base s)) && (remaining_secs <=? fade_in (base s))
        then
          match fadein_song (base s) with
          | Some fading =>
              if remaining <=? 0
              then
                let s1 := on_base (call cur h_stop) s in
                let s2 := on_base (call cur h_free_stream) s1 in
                let s3 := on_base (set_current (Some fading)) s2 in
                let s4 := on_base (set_fadein_song None) s3 in
                let s5 :=
                  on_base (fun c => set_queue_position (queue_position c + 1) c) s4 in
                emit (song_changed fading) s5
              else s
          | None =>
              match upcoming (base s) with
              | Some up =>
                  let s1 := on_base (set_fadein_song (upcoming (base s))) s in
                  on_base (call up h_play) s1
              | None => s
              end
          end
        else if remaining <=? 0
        then
          let s1 := on_base (call cur h_stop) s in
          let s2 := on_base (call cur h_free_stream) s1 in
          let '(result, s3) := next s2 in
          let s4 := on_base (set_current result) s3 in
          match result with
          | Some nxt =>
              let s5 :=
                on_base (fun c => set_queue_position (queue_position c + 1) c) s4 in
              let s6 := on_base (call nxt h_play) s5 in
              emit (song_changed nxt) s6
          | None => s4
          end
        else s
      in
      emit ticked s'
  end.

(** What one tick with the current song [cur] can do, branch by branch of
    lines 176-205: the handle calls it makes, the signals it emits before
    [ticked], and the [current], [fadein_song] and [queue_position] it
    leaves. *)
Inductive tick_effect (s : Pys2Playlist) (cur : SongId)
  : list (SongId * HandleCall) -> list Signal ->
    option SongId -> option SongId -> Z -> Prop :=
| effect_repeat :
    play_mode (base s) = loop_single ->
    tick_effect s cur [(cur, h_move2position_seconds 0)] [song_changed cur]
      (Some cur) (fadein_song (base s)) (queue_position (base s))
| effect_fade_complete (fading : SongId) :
    fadein_song (base s) = Some fading ->
    tick_effect s cur [(cur, h_stop); (cur, h_free_stream)] [song_changed fading]
      (Some fading) None (queue_position (base s) + 1)
| effect_fade_begin (up : SongId) :
    fadein_song (base s) = None ->
    upcoming (base s) = Some up ->
    tick_effect s cur [(up, h_play)] [] (Some cur) (Some up)
      (queue_position (base s))
| effect_advance (nxt : SongId) :
    tick_effect s cur [(cur, h_stop); (cur, h_free_stream); (nxt, h_play)]
      [song_changed nxt; song_changed nxt]
      (Some nxt) (fadein_song (base s)) (queue_position (base s) + 1)
| effect_finish :
    tick_effect s cur [(cur, h_stop); (cur, h_free_stream)] []
      None (fadein_song (base s)) (queue_position (base s))
| effect_none :
    tick_effect s cur [] [] (Some cur) (fadein_song (base s))
      (queue_position (base s)).

(** The timer fires again and again; between two ticks the audio backend
    moves the tracks on.  [run_ticks] takes one backend step per tick. *)
Fixpoint run_ticks (progress : list ((SongId -> Song) -> SongId -> Song))
    (s : Pys2Playlist) : Pys2Playlist :=
  match progress with
  | [] => s
  | p :: rest =>
      run_ticks rest (tick (on_base (fun c => set_songs (p (songs c)) c) s))
  end.

End Methods.

(** ** A superclass after the specification *)

Module SpecBase.

(** Entry of the queue at an integer index, [None] outside the queue. *)
Definition entry_at (c : Core) (i : Z) : option SongId :=
  if 0 <=? i then queue c !! Z.to_nat i else None.

(** Queue positions other than the cursor, for [random]. *)
Definition other_positions (c : Core) : list nat :=
  filter (fun i => Z.of_nat i ≠ queue_position c) (seq 0 (length (queue c))).

(** Modelled from the spec: the choice of [random] mode in section 4.1
    ([Playlist] is declared in [playlist.py]): an entry other than the one at
    the cursor when the queue has more than one, picked by the next draw. *)
Definition random_entry (c : Core) : option SongId :=
  match other_positions c with
  | [] => head (queue c)
  | i :: others =>
      let d := hd 0%nat (draws c) in
      (i :: others) !! (d mod length (i :: others))%nat ≫= fun j => queue c !! j
  end.

(** Modelled from the spec: [Queue.next()] of section 4.1 ([Playlist.next]
    is declared in [playlist.py]): the entry after the cursor in [sequential],
    a pseudo-random other entry in [random], the same entry in
    [loop_single]; [None] when there is none.  The cursor is not moved. *)
Definition queue_next (c : Core) : option SongId :=
  match play_mode c with
  | sequential => entry_at c (queue_position c + 1)
  | random => random_entry c
  | loop_single => entry_at c (queue_position c)
  end.

(** Modelled from the spec: [Queue.previous()] of section 4.1
    ([Playlist.previous] is declared in [playlist.py]), symmetric to
    [queue_next]. *)
Definition queue_previous (c : Core) : option SongId :=
  match play_mode c with
  | sequential => entry_at c (queue_position c - 1)
  | random => random_entry c
  | loop_single => entry_at c (queue_position c)
  end.

Definition use_draw (c : Core) : Core :=
  match play_mode c with
  | random => set_draws (tail (draws c)) c
  | _ => c
  end.

(** Modelled from the spec: [play()] of section 4.3 without its signals
    ([Playlist.play] is declared in [playlist.py]): with no current song the
    entry at the cursor, or the first entry, becomes current and is started;
    otherwise the current song is resumed. *)
Definition base_play (c : Core) : Core :=
  match current c with
  | Some t => call t h_play c
  | None =>
      match from_option Some (head (queue c)) (entry_at c (queue_position c)) with
      | Some t => call t h_play (set_current (Some t) c)
      | None => c
      end
  end.

(** Modelled from the spec: [Queue.add] of section 4.1 ([Playlist.add_song]
    is declared in [playlist.py]): the track of a path has the path as its
    identity; it is appended, and a second one of the same identity fails. *)
Definition base_add_song (song_path : string) (c : Core)
  : Result (option SongId) * Core :=
  if bool_decide (song_path ∈ queue c)
  then (raised DuplicateId, c)
  else (returned (Some song_path), set_queue (queue c ++ [song_path]) c).

Definition spec_base : PlaylistBase := {|
  super_next c := (queue_next c, use_draw c);
  super_previous c := (queue_previous c, use_draw c);
  super_play := base_play;
  upcoming := queue_next;
  super_add_song := base_add_song;
  base_len c := Z.of_nat (length (queue c))
|}.

End SpecBase.

(** ** Observations *)

(** The signals emitted, and the handle calls made, between two states. *)
Definition signals_since (s s' : Pys2Playlist) : list Signal :=
  drop (length (emitted s)) (emitted s').

Definition calls_since (s s' : Pys2Playlist) : list (SongId * HandleCall) :=
  drop (length (handle_log (base s))) (handle_log (base s')).

Definition is_song_changed (sig : Signal) : bool :=
  match sig with song_changed _ => true | _ => false end.

Definition is_ticked (sig : Signal) : bool :=
  match sig with ticked => true | _ => false end.

Definition is_music_playing (sig : Signal) : bool :=
  match sig with music_playing _ => true | _ => false end.

Definition is_songs_added (sig : Signal) : bool :=
  match sig with songs_added _ _ => true | _ => false end.

Definition is_song_added (sig : Signal) : bool :=
  match sig with song_added _ => true | _ => false end.

Definition count_signals (p : Signal -> bool) (l : list Signal) : nat :=
  length (List.filter p l).

(** How often [free_stream] was called on the track [t] in a list of calls. *)
Definition releases (t : SongId) (l : list (SongId * HandleCall)) : nat :=
  length (List.filter (fun x => bool_decide (x = (t, h_free_stream))) l).

(** A track is owned by the engine when [current] or [fadein_song] refers to it. *)
Definition owned (s : Pys2Playlist) (t : SongId) : Prop :=
  current (base s) = Some t \/ fadein_song (base s) = Some t.

(** ** Contracts of the superclass *)

(** Section 4.1 and section 5 of the specification: [Queue.next()] resolves a
    track and does nothing else; it calls no track handle, and
    [queue_position] and the engine's [fadein_song] are not its to change. *)
Record next_is_resolution (B : PlaylistBase) : Prop := {
  next_handle_log : forall c, handle_log (super_next c).2 = handle_log c;
  next_fadein_song : forall c, fadein_song (super_next c).2 = fadein_song c;
  next_queue_position : forall c, queue_position (super_next c).2 = queue_position c
}.

(** Section 4.3 of the specification: [play()] on a current song that is
    already playing resumes it, and the song stays current and playing. *)
Definition play_resumes (B : PlaylistBase) : Prop :=
  forall c t,
    current c = Some t -> is_playing (songs c t) = true ->
    current (super_play c) = Some t /\ is_playing (songs (super_play c) t) = true.

(** ** Scenarios *)

Module Scenario.
Import SpecBase.
#[local] Existing Instance spec_base.

(** A track of [secs] seconds, at its start, not playing. *)
Definition fresh (secs : Z) : Song :=
  mkSong (secs * 1000) secs 1000 (secs * 1000) secs false.

(** The store of Scenario A: T1 lasts 2 seconds, T2 lasts 3 seconds. *)
Definition store : SongId -> Song :=
  <["T1" := fresh 2]> (<["T2" := fresh 3]> (fun _ => fresh 0)).

(** Queue [T1, T2] at the cursor 0, nothing playing yet. *)
Definition two_tracks (mode : PlaylistMode) (fade : Z) : Pys2Playlist :=
  mkPlaylist
    (mkCore store ["T1"; "T2"] 0 mode fade None None [".mp3"; ".ogg"] [] [])
    [] false.

(** The audio backend has played the track [t] down to [bytes] and [secs]. *)
Definition played_to (t : SongId) (bytes secs : Z) (h : SongId -> Song)
  : SongId -> Song :=
  <[t := mkSong (length_bytes (h t)) (length_seconds (h t)) (byte_rate (h t))
                bytes secs (is_playing (h t))]> h.

Definition backend (p : (SongId -> Song) -> SongId -> Song) (s : Pys2Playlist)
  : Pys2Playlist :=
  on_base (fun c => set_songs (p (songs c)) c) s.

(** Scenario A of the specification after [play()]: T1 is current and
    playing, fading is disabled. *)
Definition scenario_A : Pys2Playlist := play (two_tracks sequential 0).

(** Scenario A when T1 has run out of data. *)
Definition scenario_A_end : Pys2Playlist := backend (played_to "T1" 0 0) scenario_A.

(** Scenario C of the specification: [loop_single], T1 has run out. *)
Definition scenario_C_end : Pys2Playlist :=
  backend (played_to "T1" 0 0) (play (two_tracks loop_single 0)).

(** Scenario B of the specification: fade window of 1, T1 is in its last
    second. *)
Definition scenario_B_window : Pys2Playlist :=
  backend (played_to "T1" 1000 1) (play (two_tracks sequential 1)).

(** Scenario B one tick later, when T2 fades in and T1 has run out. *)
Definition scenario_B_end : Pys2Playlist :=
  backend (played_to "T1" 0 0) (tick scenario_B_window).

(** T1 has run out inside a fade window of 1 while the mode is
    [loop_single]; [fading] is the song fading in, if any. *)
Definition repeat_in_window (fading : option SongId) : Pys2Playlist :=
  on_base (set_fadein_song fading)
    (backend (played_to "T1" 0 0) (play (two_tracks loop_single 1))).

(** The cursor on T2, nothing playing. *)
Definition at_second : Pys2Playlist :=
  on_base (set_queue_position 1) (two_tracks sequential 0).

(** A directory with one song, one text file and a sub-directory with one
    song. *)
Definition music : DirEntry :=
  fs_dir "music"
    [fs_file "music/b.mp3" ".mp3";
     fs_file "music/notes.txt" ".txt";
     fs_dir "music/sub" [fs_file "music/sub/a.mp3" ".mp3"]].

End Scenario.

(** ** The other controller methods *)

(** The errors of the play-by-index and play-by-id methods.  The first two
    are the superclass's, named as section 7 of the specification names them;
    [AttributeError] is what [song.id] raises on [None]. *)
Inductive ControlError : Set :=
| IndexOutOfRange
| NotFound
| AttributeError.

Inductive Outcome (A : Type) : Type :=
| completed (a : A)
| failed (e : ControlError).
Arguments completed {A} a.
Arguments failed {A} e.

(** The superclass methods behind the remaining overrides ([Playlist] is
    declared in [playlist.py]).  They are taken on the whole object, since
    nothing proved below needs them to leave the signals or the timer alone:
    a superclass method is free to call a method that [Pys2Playlist]
    overrides. *)
Class PlaylistControls : Type := {
  super_play_song_by_index :
    Z -> Pys2Playlist -> Outcome (option SongId) * Pys2Playlist;
  super_play_song_by_id :
    SongId -> Pys2Playlist -> Outcome (option SongId) * Pys2Playlist;
  super_play_first : Pys2Playlist -> option SongId * Pys2Playlist;
  super_stop : Pys2Playlist -> Pys2Playlist;
  super_pause : Pys2Playlist -> Pys2Playlist
}.

Section Controls.
Context {K : PlaylistControls}.

(** [Pys2Playlist.play_song_by_index] (lines 107-114).  The result of the
    superclass is used without a test: on [None], [song.id] raises before any
    signal. *)
Definition play_song_by_index (song_index : Z) (s : Pys2Playlist)
  : Outcome SongId * Pys2Playlist :=
  let '(song, s1) := super_play_song_by_index song_index s in
  match song with
  | completed (Some id) =>
      (completed id, emit (music_playing id) (emit (song_changed id) s1))
  | completed None => (failed AttributeError, s1)
  | failed e => (failed e, s1)
  end.

(** [Pys2Playlist.play_song_by_id] (lines 116-122). *)
Definition play_song_by_id (song_id : SongId) (s : Pys2Playlist)
  : Outcome SongId * Pys2Playlist :=
  let '(song, s1) := super_play_song_by_id song_id s in
  match song with
  | completed (Some id) =>
      (completed id, emit (music_playing id) (emit (song_changed id) s1))
  | completed None => (failed AttributeError, s1)
  | failed e => (failed e, s1)
  end.

(** [Pys2Playlist.play_first] (lines 125-130). *)
Definition play_first (s : Pys2Playlist) : option SongId * Pys2Playlist :=
  let '(song, s1) := super_play_first s in
  match song with
  | Some id => (song, emit (music_playing id) (emit (song_changed id) s1))
  | None => (song, s1)
  end.

(** [Pys2Playlist.stop] (lines 132-139). *)
Definition stop (s : Pys2Playlist) : Pys2Playlist :=
  let s1 := super_stop s in
  let s2 :=
    match current (base s1) with
    | Some c => emit (music_stopped c) s1
    | None => s1
    end in
  ticker_stop s2.

(** [Pys2Playlist.pause] (lines 141-147). *)
Definition pause (s : Pys2Playlist) : Pys2Playlist :=
  let s1 := super_pause s in
  let s2 :=
    match current (base s1) with
    | Some c => emit (music_paused c) s1
    | None => s1
    end in
  ticker_stop s2.

End Controls.

Section QueueOrder.
Variable super_set_sequential : bool -> Pys2Playlist -> Pys2Playlist.
Variable super_set_randomize : bool -> Pys2Playlist -> Pys2Playlist.

(** [Pys2Playlist.set_sequential] (lines 210-212). *)
Definition set_sequential (restart_and_play : bool) (s : Pys2Playlist)
  : Pys2Playlist :=
  emit queue_changed (super_set_sequential restart_and_play s).

(** [Pys2Playlist.set_randomize] (lines 214-216). *)
Definition set_randomize (restart_and_play : bool) (s : Pys2Playlist)
  : Pys2Playlist :=
  emit queue_changed (super_set_randomize restart_and_play s).

End QueueOrder.

Module SpecControls.
Import SpecBase.

(** Modelled from the spec: [stop()] of section 4.3 without its signal
    ([Playlist.stop] is declared in [playlist.py]): the current song, if any,
    is stopped. *)
Definition base_stop (c : Core) : Core :=
  match current c with
  | Some t => call t h_stop c
  | None => c
  end.

(** Modelled from the spec: [pause()] of section 4.3 without its signal
    ([Playlist.pause] is declared in [playlist.py]): the current song, if
    any, stops playing and keeps its stream and its position. *)
Definition base_pause (c : Core) : Core :=
  match current c with
  | Some t =>
      set_songs
        (<[t := mkSong (length_bytes (songs c t)) (length_seconds (songs c t))
                       (byte_rate (songs c t)) (remaining_bytes (songs c t))
                       (remaining_seconds (songs c t)) false]> (songs c)) c
  | None => c
  end.

(** Stop and release the current song, make [t], the entry at [i], current
    and start it. *)
Definition switch_to (i : Z) (t : SongId) (c : Core) : Core :=
  let c1 :=
    match current c with
    | Some old => call old h_free_stream (call old h_stop c)
    | None => c
    end in
  call t h_play (set_current (Some t) (set_queue_position i c1)).

(** Modelled from the spec: [play_by_index] of section 4.3 without its
    signals ([Playlist.play_song_by_index] is declared in [playlist.py]): an
    index outside the queue fails; otherwise the current song is stopped and
    released and the target becomes current and is started. *)
Definition base_play_song_by_index (i : Z) (c : Core)
  : Outcome (option SongId) * Core :=
  match entry_at c i with
  | Some t => (completed (Some t), switch_to i t c)
  | None => (failed IndexOutOfRange, c)
  end.

(** Position of the first entry equal to [id], counted from [i]. *)
Fixpoint position_from (i : Z) (id : SongId) (q : list SongId) : option Z :=
  match q with
  | [] => None
  | t :: rest => if bool_decide (t = id) then Some i else position_from (i + 1) id rest
  end.

(** Modelled from the spec: [play_by_id] of section 4.3 without its signals
    ([Playlist.play_song_by_id] is declared in [playlist.py]): an identity
    that is not in the queue fails; otherwise as for an index. *)
Definition base_play_song_by_id (id : SongId) (c : Core)
  : Outcome (option SongId) * Core :=
  match position_from 0 id (queue c) with
  | Some i => (completed (Some id), switch_to i id c)
  | None => (failed NotFound, c)
  end.

(** Modelled from the spec: [play_first] of section 4.3 without its signals
    ([Playlist.play_first] is declared in [playlist.py]): the first entry
    becomes current and is played; [None] on an empty queue. *)
Definition base_play_first (c : Core) : option SongId * Core :=
  match head (queue c) with
  | Some t => (Some t, call t h_play (set_current (Some t) (set_queue_position 0 c)))
  | None => (None, c)
  end.

(** A superclass method that stays within the superclass state, taken on
    the whole object. *)
Definition lift {A : Type} (f : Core -> A * Core) (s : Pys2Playlist)
  : A * Pys2Playlist :=
  ((f (base s)).1, set_base (f (base s)).2 s).

Definition spec_controls : PlaylistControls := {|
  super_play_song_by_index i := lift (base_play_song_by_index i);
  super_play_song_by_id id := lift (base_play_song_by_id id);
  super_play_first := lift base_play_first;
  super_stop := on_base base_stop;
  super_pause := on_base base_pause
|}.

End SpecControls.

Module MoreScenarios.
Import SpecBase Scenario.
#[local] Existing Instance spec_base.

(** Scenario A when T2, the last song, has run out of data in its turn. *)
Definition scenario_A_last : Pys2Playlist :=
  backend (played_to "T2" 0 0) (tick scenario_A_end).

(** Scenario A while T1 still has data and time left. *)
Definition scenario_A_middle : Pys2Playlist :=
  backend (played_to "T1" 1000 1) scenario_A.

(** A directory of two songs and no sub-directory. *)
Definition flat : DirEntry :=
  fs_dir "music" [fs_file "music/b.mp3" ".mp3"; fs_file "music/c.ogg" ".ogg"].

(** The superclass of the specification, except that its [add_song] rejects
    the path [bad] with [TypeError], as for a file it cannot read. *)
Definition picky_base (bad : string) : PlaylistBase := {|
  super_next := super_next (PlaylistBase := spec_base);
  super_previous := super_previous (PlaylistBase := spec_base);
  super_play := super_play (PlaylistBase := spec_base);
  upcoming := upcoming (PlaylistBase := spec_base);
  super_add_song song_path c :=
    if bool_decide (song_path = bad)
    then (raised TypeError, c)
    else base_add_song song_path c;
  base_len := base_len (PlaylistBase := spec_base)
|}.

(** A directory whose first song is the one that is rejected. *)
Definition with_rejected : DirEntry :=
  fs_dir "music" [fs_file "music/bad.mp3" ".mp3"; fs_file "music/c.ogg" ".ogg"].

End MoreScenarios.

(** ** The tick, branch by branch *)

Section TickBranches.
Context {B : PlaylistBase}.

Lemma songs_call_same (t : SongId) (hc : HandleCall) (c : Core) :
  songs (call t hc c) t = apply_call hc (songs c t).
Proof. unfold call; simpl. apply fn_lookup_insert. Qed.

(** C5: in [loop_single] mode, a tick that finds no data left in the current
    song seeks it to position 0 and emits one [song_changed] for it;
    [queue_position], [current] and [fadein_song] stay as they were, and no
    call of the fade or end-of-track branches (stop, release, play) is made,
    whatever the fade window is. *)
Theorem tick_loop_single_repeats (s : Pys2Playlist) (cur : SongId) :
  current (base s) = Some cur ->
  play_mode (base s) = loop_single ->
  remaining_bytes (songs (base s) cur) <= 0 ->
  handle_log (base (tick s))
    = handle_log (base s) ++ [(cur, h_move2position_seconds 0)]
  /\ emitted (tick s) = emitted s ++ [song_changed cur; ticked]
  /\ count_signals is_song_changed (signals_since s (tick s)) = 1%nat
  /\ queue_position (base (tick s)) = queue_position (base s)
  /\ current (base (tick s)) = Some cur
  /\ fadein_song (base (tick s)) = fadein_song (base s)
  /\ remaining_bytes (songs (base (tick s)) cur) = length_bytes (songs (base s) cur)
  /\ remaining_seconds (songs (base (tick s)) cur)
     = length_seconds (songs (base s) cur).
Proof.
  intros Hcur Hmode Hrem.
  unfold tick, signals_since. rewrite Hcur.
  rewrite (bool_decide_eq_true_2 _ Hmode).
  apply Z.leb_le in Hrem. rewrite Hrem. simpl.
  rewrite <- !app_assoc. simpl.
  rewrite drop_app_length. simpl.
  rewrite fn_lookup_insert. simpl.
  repeat split; try reflexivity; try assumption; lia.
Qed.

(** C3, amended: outside [loop_single] mode, a tick inside the fade window
    that finds [fadein_song] set and no data left in the current song stops
    and releases the current song, makes [fadein_song] the current one, clears
    [fadein_song], adds one to [queue_position] and emits one [song_changed];
    nothing else is called or emitted on that tick but the final [ticked]. *)
Theorem tick_completes_fade (s : Pys2Playlist) (cur fading : SongId) :
  current (base s) = Some cur ->
  fadein_song (base s) = Some fading ->
  0 < fade_in (base s) ->
  remaining_seconds (songs (base s) cur) <= fade_in (base s) ->
  remaining_bytes (songs (base s) cur) <= 0 ->
  play_mode (base s) <> loop_single ->
  handle_log (base (tick s))
    = handle_log (base s) ++ [(cur, h_stop); (cur, h_free_stream)]
  /\ current (base (tick s)) = Some fading
  /\ fadein_song (base (tick s)) = None
  /\ queue_position (base (tick s)) = queue_position (base s) + 1
  /\ emitted (tick s) = emitted s ++ [song_changed fading; ticked]
  /\ ticker_active (tick s) = ticker_active s.
Proof.
  intros Hcur Hfad Hwin Hsecs Hrem Hmode.
  unfold tick. rewrite Hcur.
  rewrite (bool_decide_eq_false_2 _ Hmode).
  apply Z.ltb_lt in Hwin. apply Z.leb_le in Hsecs. apply Z.leb_le in Hrem.
  rewrite Hwin, Hsecs, Hfad, Hrem. simpl.
  rewrite <- !app_assoc. simpl.
  repeat split; reflexivity.
Qed.

(** C4, amended: unless the repeat rule applies ([loop_single] mode with no
    data left), a tick inside the fade window that finds [fadein_song] unset
    and an upcoming song sets [fadein_song] to that song and starts it;
    [current] and [queue_position] are unchanged and the only signal of the
    tick is the final [ticked], so no [song_changed] is emitted. *)
Theorem tick_begins_fade (s : Pys2Playlist) (cur up : SongId) :
  current (base s) = Some cur ->
  fadein_song (base s) = None ->
  upcoming (base s) = Some up ->
  0 < fade_in (base s) ->
  remaining_seconds (songs (base s) cur) <= fade_in (base s) ->
  ~ (play_mode (base s) = loop_single
     /\ remaining_bytes (songs (base s) cur) <= 0) ->
  fadein_song (base (tick s)) = Some up
  /\ handle_log (base (tick s)) = handle_log (base s) ++ [(up, h_play)]
  /\ is_playing (songs (base (tick s)) up) = true
  /\ current (base (tick s)) = Some cur
  /\ queue_position (base (tick s)) = queue_position (base s)
  /\ emitted (tick s) = emitted s ++ [ticked].
Proof.
  intros Hcur Hfad Hup Hwin Hsecs Hrule.
  unfold tick. rewrite Hcur.
  assert (Hfirst : bool_decide (play_mode (base s) = loop_single)
                   && (remaining_bytes (songs (base s) cur) <=? 0) = false).
  { apply andb_false_iff.
    destruct (decide (play_mode (base s) = loop_single)) as [Hm|Hm].
    - right. apply Z.leb_gt. apply Z.nle_gt. intros Hle. apply Hrule. auto.
    - left. apply bool_decide_eq_false_2. exact Hm. }
  rewrite Hfirst.
  apply Z.ltb_lt in Hwin. apply Z.leb_le in Hsecs.
  rewrite Hwin, Hsecs, Hfad, Hup. simpl.
  rewrite fn_lookup_insert. simpl.
  repeat split; try reflexivity; assumption.
Qed.

Ltac no_ticked :=
  rewrite ?not_elem_of_cons; repeat split; try discriminate; apply not_elem_of_nil.

(** The end-of-track branch (lines 197-205) when the queue resolves a next
    song: [self.next()] is the overriding [next] and has emitted
    [song_changed] already when line 205 emits it again. *)
Lemma tick_end_of_track_signals (s : Pys2Playlist) (cur nxt : SongId) :
  current (base s) = Some cur ->
  play_mode (base s) <> loop_single ->
  fade_in (base s) <= 0 ->
  remaining_bytes (songs (base s) cur) <= 0 ->
  (super_next (call cur h_free_stream (call cur h_stop (base s)))).1 = Some nxt ->
  emitted (tick s) = emitted s ++ [song_changed nxt; song_changed nxt; ticked].
Proof.
  intros Hcur Hmode Hfade Hrem Hnext.
  unfold tick, next. rewrite Hcur.
  rewrite (bool_decide_eq_false_2 _ Hmode).
  apply Z.ltb_ge in Hfade. apply Z.leb_le in Hrem.
  rewrite Hfade, Hrem. simpl in *.
  destruct (super_next _) as [result b]. simpl in Hnext. subst result. simpl.
  rewrite <- !app_assoc. reflexivity.
Qed.

(** C2, amended: a tick that finds a current song emits [ticked] exactly
    once, as its last signal, whichever branch it takes; a tick that finds no
    current song stops the timer and returns without emitting anything. *)
Theorem tick_emits_ticked_last (s : Pys2Playlist) :
  match current (base s) with
  | Some _ =>
      exists sigs, emitted (tick s) = emitted s ++ sigs ++ [ticked] /\ ticked ∉ sigs
  | None =>
      emitted (tick s) = emitted s /\ ticker_active (tick s) = false
  end.
Proof.
  unfold tick, next.
  destruct (current (base s)) as [cur|]; [|split; reflexivity].
  repeat case_match; simplify_eq/=;
    match goal with
    | |- exists sigs, ?l ++ [ticked] = ?l ++ sigs ++ [ticked] /\ _ =>
        exists []; split; [reflexivity | apply not_elem_of_nil]
    | |- exists sigs, (?l ++ [?a]) ++ [ticked] = ?l ++ sigs ++ [ticked] /\ _ =>
        exists [a]; split; [rewrite <- !app_assoc; reflexivity | no_ticked]
    | |- exists sigs, ((?l ++ [?a]) ++ [?b]) ++ [ticked] = ?l ++ sigs ++ [ticked] /\ _ =>
        exists [a; b]; split; [rewrite <- !app_assoc; reflexivity | no_ticked]
    end.
Qed.

End TickBranches.

(** ** The tick as a whole *)

Section TickEffects.
Context {B : PlaylistBase}.
Hypothesis next_resolves : next_is_resolution B.

(** Every tick that finds a current song takes exactly one of the branches
    of [tick_effect], and always ends with [ticked]. *)
Lemma tick_has_effect (s : Pys2Playlist) (cur : SongId) :
  current (base s) = Some cur ->
  exists calls sigs,
    tick_effect s cur calls sigs (current (base (tick s)))
      (fadein_song (base (tick s))) (queue_position (base (tick s)))
    /\ handle_log (base (tick s)) = handle_log (base s) ++ calls
    /\ emitted (tick s) = emitted s ++ sigs ++ [ticked].
Proof.
  intros Hcur. unfold tick. rewrite Hcur.
  destruct (bool_decide (play_mode (base s) = loop_single)
            && (remaining_bytes (songs (base s) cur) <=? 0)) eqn:Hrepeat.
  { apply andb_true_iff in Hrepeat as [Hmode _].
    apply bool_decide_eq_true_1 in Hmode.
    eexists _, _. simpl. rewrite Hcur. split; [apply effect_repeat, Hmode|].
    rewrite <- app_assoc. split; reflexivity. }
  destruct ((0 <? fade_in (base s))
            && (remaining_seconds (songs (base s) cur) <=? fade_in (base s)))
    eqn:Hwindow.
  { destruct (fadein_song (base s)) as [fading|] eqn:Hfading.
    - destruct (remaining_bytes (songs (base s) cur) <=? 0).
      + eexists _, _. simpl.
        split; [apply effect_fade_complete, Hfading|].
        rewrite <- !app_assoc. split; reflexivity.
      + exists [], []. simpl. rewrite Hcur, Hfading, app_nil_r.
        split; [rewrite <- Hfading; apply effect_none|].
        split; reflexivity.
    - destruct (upcoming (base s)) as [up|] eqn:Hup.
      + eexists _, _. simpl. rewrite Hcur.
        split; [apply effect_fade_begin; assumption|].
        split; reflexivity.
      + exists [], []. simpl. rewrite Hcur, Hfading, app_nil_r.
        split; [rewrite <- Hfading; apply effect_none|].
        split; reflexivity. }
  destruct (remaining_bytes (songs (base s) cur) <=? 0).
  - unfold next. simpl.
    match goal with |- context [super_next ?c] =>
      pose proof (next_handle_log B next_resolves c) as Hlog;
      pose proof (next_fadein_song B next_resolves c) as Hfade;
      pose proof (next_queue_position B next_resolves c) as Hpos;
      destruct (super_next c) as [[nxt|] b]
    end; simpl in *.
    + eexists _, _. rewrite Hlog, Hfade, Hpos.
      split; [apply effect_advance|].
      rewrite <- !app_assoc. split; reflexivity.
    + eexists _, _. rewrite Hlog, Hfade, Hpos.
      split; [apply effect_finish|].
      rewrite <- !app_assoc. split; reflexivity.
  - exists [], []. simpl. rewrite Hcur, app_nil_r.
    split; [apply effect_none|]. split; reflexivity.
Qed.

(** X1: one tick moves the cursor by one step at most: [queue_position]
    stays, or grows by exactly one. *)
Lemma tick_cursor_step (s : Pys2Playlist) :
  queue_position (base (tick s)) = queue_position (base s)
  \/ queue_position (base (tick s)) = queue_position (base s) + 1.
Proof.
  destruct (current (base s)) as [cur|] eqn:Hcur.
  - destruct (tick_has_effect s cur Hcur) as (calls & sigs & Heff & _ & _).
    inversion Heff; subst; auto.
  - left. unfold tick. rewrite Hcur. reflexivity.
Qed.

(** One tick never hands [fadein_song] to another track: it keeps it, or it
    clears it by making that track the current one. *)
Lemma tick_keeps_fadein_song (s : Pys2Playlist) (f : SongId) :
  fadein_song (base s) = Some f ->
  fadein_song (base (tick s)) = Some f
  \/ (fadein_song (base (tick s)) = None /\ current (base (tick s)) = Some f).
Proof.
  intros Hf.
  destruct (current (base s)) as [cur|] eqn:Hcur.
  - destruct (tick_has_effect s cur Hcur) as (calls & sigs & Heff & _ & _).
    inversion Heff; subst; try (left; congruence).
    right. split; congruence.
  - left. unfold tick. rewrite Hcur. exact Hf.
Qed.

(** C6: once [fadein_song] is set to a track, no later tick assigns it again
    before it has been cleared.  Over any run of ticks, with the backend
    moving the tracks on in between, [fadein_song] names that same track after
    each of the first [k] ticks, and either these are all the ticks of the
    run, or the next tick clears [fadein_song] and makes the track the current
    one. *)
Theorem one_fade_in_flight (progress : list ((SongId -> Song) -> SongId -> Song))
    (s : Pys2Playlist) (f : SongId) :
  fadein_song (base s) = Some f ->
  exists k : nat,
    (k <= length progress)%nat
    /\ (forall j : nat, (j <= k)%nat ->
          fadein_song (base (run_ticks (take j progress) s)) = Some f)
    /\ (k = length progress
        \/ (fadein_song (base (run_ticks (take (S k) progress) s)) = None
            /\ current (base (run_ticks (take (S k) progress) s)) = Some f)).
Proof.
  revert s. induction progress as [|p rest IH]; intros s Hf.
  - exists 0%nat. split; [reflexivity|]. split; [|left; reflexivity].
    intros j _. rewrite take_nil. exact Hf.
  - set (s0 := on_base (fun c => set_songs (p (songs c)) c) s).
    assert (Hf0 : fadein_song (base s0) = Some f) by exact Hf.
    destruct (tick_keeps_fadein_song s0 f Hf0) as [Hkeep | [Hclear Hpromoted]].
    + destruct (IH (tick s0) Hkeep) as (k & Hk & Hheld & Hend).
      exists (S k). split; [simpl; lia|]. split.
      * intros [|j] Hj; [exact Hf|]. simpl. apply Hheld. lia.
      * destruct Hend as [-> | Hpromote]; [left; reflexivity | right; exact Hpromote].
    + exists 0%nat. split; [simpl; lia|]. split.
      * intros j Hj. replace j with 0%nat by lia. exact Hf.
      * right. split; assumption.
Qed.

Lemma releases_app (t : SongId) (l1 l2 : list (SongId * HandleCall)) :
  releases t (l1 ++ l2) = (releases t l1 + releases t l2)%nat.
Proof. unfold releases. rewrite List.filter_app. apply length_app. Qed.


Lemma releases_other (t x : SongId) (hc : HandleCall) :
  hc <> h_free_stream -> releases t [(x, hc)] = 0%nat.
Proof.
  intros Hhc. unfold releases. simpl.
  rewrite bool_decide_eq_false_2 by congruence. reflexivity.
Qed.





End TickEffects.

(** ** The controller operations *)

Section Controller.
Context {B : PlaylistBase}.

Lemma play_base (s : Pys2Playlist) : base (play s) = super_play (base s).
Proof. unfold play. simpl. repeat case_match; reflexivity. Qed.

(** The signals of one [play()] call: [music_playing] when the song that is
    current afterwards is playing, then [song_changed] when there was no
    current song before. *)
Lemma play_emitted (s : Pys2Playlist) :
  emitted (play s)
  = emitted s ++
    match current (super_play (base s)) with
    | Some c =>
        (if is_playing (songs (super_play (base s)) c) then [music_playing c] else [])
        ++ (if bool_decide (current (base s) = None) then [song_changed c] else [])
    | None => []
    end.
Proof.
  unfold play. simpl.
  destruct (current (super_play (base s))) as [c|] eqn:Hc; simpl.
  - destruct (is_playing (songs (super_play (base s)) c)); simpl; rewrite Hc;
      destruct (bool_decide (current (base s) = None)); simpl;
      rewrite <- ?app_assoc, ?app_nil_r; reflexivity.
  - rewrite Hc, app_nil_r. reflexivity.
Qed.

Lemma play_signals_since (s : Pys2Playlist) :
  signals_since s (play s)
  = match current (super_play (base s)) with
    | Some c =>
        (if is_playing (songs (super_play (base s)) c) then [music_playing c] else [])
        ++ (if bool_decide (current (base s) = None) then [song_changed c] else [])
    | None => []
    end.
Proof. unfold signals_since. rewrite play_emitted. apply drop_app_length. Qed.

(** C8, amended: when the current song is already playing, each [play()] call
    emits exactly one [music_playing], so two calls in succession emit two,
    and neither emits [song_changed]; [play()] emits [song_changed] for a song
    exactly when there was no current song before the call and that song is
    current after it. *)
Theorem play_twice_while_playing (s : Pys2Playlist) (t : SongId) :
  play_resumes B ->
  current (base s) = Some t ->
  is_playing (songs (base s) t) = true ->
  signals_since s (play s) = [music_playing t]
  /\ signals_since (play s) (play (play s)) = [music_playing t]
  /\ emitted (play (play s)) = emitted s ++ [music_playing t; music_playing t]
  /\ (forall (s' : Pys2Playlist) (id : SongId),
        song_changed id ∈ signals_since s' (play s')
        <-> current (base s') = None /\ current (base (play s')) = Some id).
Proof.
  intros Hresume Hcur Hplaying.
  assert (Hone : forall s0, current (base s0) = Some t ->
                            is_playing (songs (base s0) t) = true ->
                            signals_since s0 (play s0) = [music_playing t]).
  { intros s0 H0 H1. rewrite play_signals_since.
    destruct (Hresume _ _ H0 H1) as [Hc Hp]. rewrite Hc, Hp, H0. reflexivity. }
  destruct (Hresume _ _ Hcur Hplaying) as [Hc Hp].
  assert (Hfirst : emitted (play s) = emitted s ++ [music_playing t]).
  { rewrite play_emitted, Hc, Hp, Hcur. reflexivity. }
  split; [apply Hone; assumption|].
  split; [apply Hone; rewrite play_base; assumption|].
  split.
  - rewrite play_emitted, play_base, Hfirst.
    destruct (Hresume _ _ Hc Hp) as [Hc2 Hp2].
    rewrite Hc2, Hp2, Hc. simpl. rewrite <- app_assoc. reflexivity.
  - intros s' id. rewrite play_signals_since, play_base.
    destruct (current (base s')) as [c0|].
    + rewrite bool_decide_eq_false_2 by discriminate.
      split; [|intros [[=] _]].
      destruct (current (super_play (base s'))) as [c|];
        [destruct (is_playing (songs (super_play (base s')) c))|]; simpl;
        rewrite ?elem_of_cons, ?elem_of_nil; intros H;
        repeat (destruct H as [H|H]; try discriminate H); contradiction.
    + rewrite bool_decide_eq_true_2 by reflexivity.
      destruct (current (super_play (base s'))) as [c|];
        [destruct (is_playing (songs (super_play (base s')) c))|]; simpl;
        rewrite ?elem_of_cons, ?elem_of_nil.
      * split.
        -- intros [[=] | [[= ->] | []]]. auto.
        -- intros [_ [= ->]]. right; left; reflexivity.
      * split.
        -- intros [[= ->] | []]. auto.
        -- intros [_ [= ->]]. left; reflexivity.
      * split; [intros [] | intros [_ [=]]].
Qed.

(** X12: [previous()] hands the work to the superclass, emits [song_changed] when
    a song was resolved, makes no handle call of its own, and returns
    [None] in either case. *)
Lemma previous_effect (s : Pys2Playlist) :
  (previous s).1 = None
  /\ base (previous s).2 = (super_previous (base s)).2
  /\ emitted (previous s).2
     = emitted s ++ match (super_previous (base s)).1 with
                    | Some r => [song_changed r]
                    | None => []
                    end.
Proof.
  unfold previous. destruct (super_previous (base s)) as [[r|] b]; simpl;
    rewrite ?app_nil_r; repeat split; reflexivity.
Qed.

(** X11: [next()] hands the work to the superclass, emits [song_changed] when
    a song was resolved, makes no handle call of its own, and returns what
    the superclass resolved. *)
Lemma next_effect (s : Pys2Playlist) :
  (next s).1 = (super_next (base s)).1
  /\ base (next s).2 = (super_next (base s)).2
  /\ emitted (next s).2
     = emitted s ++ match (super_next (base s)).1 with
                    | Some r => [song_changed r]
                    | None => []
                    end.
Proof.
  unfold next. destruct (super_next (base s)) as [[r|] b]; simpl;
    rewrite ?app_nil_r; repeat split; reflexivity.
Qed.

End Controller.

(** ** Importing a directory *)

Section DirectoryImport.
Context {B : PlaylistBase}.

(** Induction over a directory tree, with the property at hand for every
    entry of a directory. *)
Lemma DirEntry_tree_ind (P : DirEntry -> Prop) :
  (forall path suffix, P (fs_file path suffix)) ->
  (forall path, P (fs_other path)) ->
  (forall path children, Forall P children -> P (fs_dir path children)) ->
  forall d, P d.
Proof.
  intros Hfile Hother Hdir.
  fix IH 1. intros [path suffix | path children | path].
  - apply Hfile.
  - apply Hdir. induction children as [|d rest IHrest]; constructor.
    + apply IH.
    + exact IHrest.
  - apply Hother.
Qed.

(** [add_song] emits [song_added] for the song it added unless told not to,
    and nothing else. *)
Lemma add_song_emitted (song_path : string) (supress_emit : bool) (s : Pys2Playlist) :
  emitted (add_song song_path supress_emit s).2
  = emitted s ++
    match (add_song song_path supress_emit s).1 with
    | returned (Some id) => if supress_emit then [] else [song_added id]
    | _ => []
    end.
Proof.
  unfold add_song.
  destruct (super_add_song song_path (base s)) as [[[id|]|e] b]; simpl;
    rewrite ?app_nil_r; try reflexivity.
  destruct supress_emit; simpl; rewrite ?app_nil_r; reflexivity.
Qed.

(** With emission suppressed the loop over the files is silent. *)
Lemma add_files_silent (entries : list DirEntry) (song_ids : list SongId)
    (s : Pys2Playlist) :
  emitted (add_files entries true song_ids s).2 = emitted s.
Proof.
  revert song_ids s.
  induction entries as [|entry rest IH]; intros song_ids s; simpl; [reflexivity|].
  destruct entry as [path suffix | path children | path]; try apply IH.
  case_bool_decide; [|apply IH].
  pose proof (add_song_emitted path true s) as Hsong.
  destruct (add_song path true s) as [[[id|]|e] s1]; simpl in *;
    rewrite app_nil_r in Hsong.
  - rewrite IH. exact Hsong.
  - rewrite IH. exact Hsong.
  - destruct e; simpl; rewrite ?IH; exact Hsong.
Qed.

(** Without suppression the loop emits one [song_added] per id it appends,
    in the order of the ids. *)
Lemma add_files_announces (entries : list DirEntry) (song_ids : list SongId)
    (s : Pys2Playlist) :
  exists added : list SongId,
    emitted (add_files entries false song_ids s).2
    = emitted s ++ (song_added <$> added)
    /\ forall ids, (add_files entries false song_ids s).1 = returned ids ->
                   ids = song_ids ++ added.
Proof.
  revert song_ids s.
  induction entries as [|entry rest IH]; intros song_ids s; simpl.
  { exists []. simpl. rewrite !app_nil_r. split; [reflexivity|]. congruence. }
  destruct entry as [path suffix | path children | path]; try apply IH.
  case_bool_decide; [|apply IH].
  pose proof (add_song_emitted path false s) as Hsong.
  destruct (add_song path false s) as [[[id|]|e] s1]; simpl in *.
  - destruct (IH (song_ids ++ [id]) s1) as (added & Hsig & Hids).
    exists (id :: added). rewrite Hsig, Hsong, <- app_assoc. simpl.
    split; [reflexivity|]. intros ids Hret.
    rewrite (Hids ids Hret), <- app_assoc. reflexivity.
  - rewrite app_nil_r in Hsong. rewrite <- Hsong. apply IH.
  - rewrite app_nil_r in Hsong.
    destruct e; simpl; try (rewrite <- Hsong; apply IH);
      exists []; simpl; rewrite app_nil_r; (split; [exact Hsong | discriminate]).
Qed.

(** The loop over the sub-directories is silent when every walk is. *)
Lemma add_subdirectories_silent
    (walk : DirEntry -> Pys2Playlist -> Result (Z * list SongId) * Pys2Playlist)
    (entries : list DirEntry) :
  Forall (fun d => forall s, emitted (walk d s).2 = emitted s) entries ->
  forall song_ids s,
    emitted (add_subdirectories walk entries song_ids s).2 = emitted s.
Proof.
  induction 1 as [|d rest Hd _ IH]; intros song_ids s; simpl; [reflexivity|].
  destruct d as [path suffix | path children | path]; try apply IH.
  specialize (Hd s).
  destruct (walk (fs_dir path children) s) as [[[i sub]|e] s1]; simpl in *.
  - rewrite IH. exact Hd.
  - exact Hd.
Qed.

(** The walk of a sub-directory, as the recursive call of line 82 makes it
    (with [top] false and [surpress_emit] true), emits no signal, however
    deep the tree below it is. *)
Lemma add_directory_nested_silent (d : DirEntry) :
  forall (recurse : bool) (s : Pys2Playlist),
    emitted (add_directory d recurse false true s).2 = emitted s.
Proof.
  induction d as [path suffix | path | path children IH] using DirEntry_tree_ind;
    intros recurse s; simpl; try reflexivity.
  pose proof (add_files_silent children [] s) as Hfiles.
  destruct (add_files children true [] s) as [[song_ids|e] s1]; simpl in *;
    [|exact Hfiles].
  destruct recurse.
  - assert (Hall : Forall (fun d => forall s,
                     emitted (add_directory d true false true s).2 = emitted s)
                     children).
    { clear -IH. induction IH as [|d rest Hd _ IHrest]; constructor; auto. }
    pose proof (add_subdirectories_silent
                  (fun fdir s => add_directory fdir true false true s) children
                  Hall song_ids s1) as Hsub.
    destruct (add_subdirectories _ children song_ids s1) as [[ids|e] s2];
      simpl in *; congruence.
  - simpl. exact Hfiles.
Qed.

(** What [add_directory] emits on a directory: the signals of the loop over
    its own files, and then the aggregate [songs_added] when the call returns
    with [top] and [surpress_emit] both set.  Nothing is emitted for the
    songs of the sub-directories, whatever [surpress_emit] is. *)
Lemma add_directory_emitted (path : string) (children : list DirEntry)
    (recurse top surpress_emit : bool) (s : Pys2Playlist) :
  emitted (add_directory (fs_dir path children) recurse top surpress_emit s).2
  = emitted (add_files children surpress_emit [] s).2 ++
    match (add_directory (fs_dir path children) recurse top surpress_emit s).1 with
    | returned (index_position, song_ids) =>
        if top && surpress_emit then [songs_added index_position song_ids] else []
    | raised _ => []
    end.
Proof.
  simpl.
  destruct (add_files children surpress_emit [] s) as [[song_ids|e] s1]; simpl;
    [|rewrite app_nil_r; reflexivity].
  assert (Hsub : forall r2 s2,
            (if recurse
             then add_subdirectories
                    (fun fdir s => add_directory fdir recurse false true s)
                    children song_ids s1
             else (returned song_ids, s1)) = (r2, s2) ->
            emitted s2 = emitted s1).
  { intros r2 s2 Heq. destruct recurse.
    - assert (Hall : Forall (fun d => forall s,
                       emitted (add_directory d true false true s).2 = emitted s)
                       children).
      { apply Forall_forall. intros d _ s0. apply add_directory_nested_silent. }
      rewrite <- (add_subdirectories_silent _ children Hall song_ids s1).
      rewrite Heq. reflexivity.
    - congruence. }
  destruct (if recurse then _ else _) as [[ids|e] s2]; simpl;
    rewrite <- (Hsub _ _ eq_refl).
  - destruct (top && surpress_emit); simpl; rewrite ?app_nil_r; reflexivity.
  - rewrite app_nil_r. reflexivity.
Qed.

(** A call with [top] false returns -1 as its index position. *)
Lemma add_directory_nested_index (d : DirEntry) (recurse surpress_emit : bool)
    (s : Pys2Playlist) (index_position : Z) (song_ids : list SongId) :
  (add_directory d recurse false surpress_emit s).1
  = returned (index_position, song_ids) ->
  index_position = -1.
Proof.
  destruct d as [path suffix | path children | path]; simpl; try discriminate.
  destruct (add_files children surpress_emit [] s) as [[ids|e] s1]; simpl;
    [|discriminate].
  destruct (if recurse then _ else _) as [[ids2|e] s2]; simpl; congruence.
Qed.

End DirectoryImport.

(** ** The methods on the superclass of the specification *)

Section OnSpecBase.
Import SpecBase Scenario.
#[local] Existing Instance spec_base.

Ltac evaluate :=
  vm_compute; repeat split; try reflexivity; try discriminate;
  try (let H := fresh in intros H; discriminate H).

Lemma spec_base_next_is_resolution : next_is_resolution spec_base.
Proof.
  split; intros c; simpl; unfold use_draw; destruct (play_mode c); reflexivity.
Qed.

Lemma spec_base_play_resumes : play_resumes spec_base.
Proof.
  intros c t Hcur Hplaying. simpl. unfold base_play. rewrite Hcur.
  split; [exact Hcur|]. rewrite songs_call_same. reflexivity.
Qed.

(** C1: in Scenario A the tick on which T1 runs out makes T2 current and
    takes [queue_position] to 1, and it emits [song_changed] for T2 twice:
    once inside [next()] and once more at the end of the branch. *)
Theorem scenario_A_changes_track_twice :
  signals_since scenario_A_end (tick scenario_A_end)
  = [song_changed "T2"; song_changed "T2"; ticked]
  /\ count_signals is_song_changed (signals_since scenario_A_end (tick scenario_A_end))
     = 2%nat
  /\ current (base (tick scenario_A_end)) = Some "T2"
  /\ queue_position (base (tick scenario_A_end)) = 1.
Proof. evaluate. Qed.

(** C2, as stated, fails: a tick that finds no current song emits no
    [ticked] at all. *)
Lemma tick_without_song_emits_nothing :
  current (base (two_tracks sequential 0)) = None
  /\ signals_since (two_tracks sequential 0) (tick (two_tracks sequential 0)) = []
  /\ count_signals is_ticked
       (signals_since (two_tracks sequential 0) (tick (two_tracks sequential 0)))
     <> 1%nat.
Proof. evaluate. Qed.

(** C3, as stated, fails: in [loop_single] mode the repeat rule runs first, so
    a tick inside the fade window with T2 fading in and no data left in T1
    neither promotes T2 nor clears [fadein_song] nor moves the cursor. *)
Lemma repeat_preempts_fade_completion :
  current (base (repeat_in_window (Some "T2"))) = Some "T1"
  /\ 0 < fade_in (base (repeat_in_window (Some "T2")))
  /\ remaining_seconds (songs (base (repeat_in_window (Some "T2"))) "T1")
     <= fade_in (base (repeat_in_window (Some "T2")))
  /\ fadein_song (base (repeat_in_window (Some "T2"))) = Some "T2"
  /\ remaining_bytes (songs (base (repeat_in_window (Some "T2"))) "T1") <= 0
  /\ current (base (tick (repeat_in_window (Some "T2")))) <> Some "T2"
  /\ fadein_song (base (tick (repeat_in_window (Some "T2")))) <> None
  /\ queue_position (base (tick (repeat_in_window (Some "T2"))))
     <> queue_position (base (repeat_in_window (Some "T2"))) + 1
  /\ calls_since (repeat_in_window (Some "T2")) (tick (repeat_in_window (Some "T2")))
     = [("T1", h_move2position_seconds 0)].
Proof. evaluate. Qed.

(** C4, as stated, fails: in [loop_single] mode with no data left the repeat
    rule runs first, so a tick inside the fade window with [fadein_song]
    unset and an upcoming song leaves [fadein_song] unset, starts nothing,
    and emits a [song_changed]. *)
Lemma repeat_preempts_fade_start :
  current (base (repeat_in_window None)) = Some "T1"
  /\ 0 < fade_in (base (repeat_in_window None))
  /\ remaining_seconds (songs (base (repeat_in_window None)) "T1")
     <= fade_in (base (repeat_in_window None))
  /\ fadein_song (base (repeat_in_window None)) = None
  /\ upcoming (base (repeat_in_window None)) = Some "T1"
  /\ fadein_song (base (tick (repeat_in_window None))) <> Some "T1"
  /\ signals_since (repeat_in_window None) (tick (repeat_in_window None))
     = [song_changed "T1"; ticked]
  /\ calls_since (repeat_in_window None) (tick (repeat_in_window None))
     = [("T1", h_move2position_seconds 0)].
Proof. evaluate. Qed.

(** C8, as stated, fails: with T1 current and playing, two [play()] calls in
    succession emit [music_playing] twice, not once. *)
Lemma play_twice_emits_playing_twice :
  current (base scenario_A) = Some "T1"
  /\ is_playing (songs (base scenario_A) "T1") = true
  /\ signals_since scenario_A (play (play scenario_A))
     = [music_playing "T1"; music_playing "T1"]
  /\ count_signals is_music_playing (signals_since scenario_A (play (play scenario_A)))
     <> 1%nat.
Proof. evaluate. Qed.


(** C9: with the cursor on T2 the queue resolves T1 as the previous song and
    [previous()] emits [song_changed] for it without any handle call, but it
    returns [None]; [next()] on the same queue returns the song it resolved. *)
Theorem previous_returns_none :
  (super_previous (base at_second)).1 = Some "T1"
  /\ (previous at_second).1 = None
  /\ emitted (previous at_second).2 = [song_changed "T1"]
  /\ handle_log (base (previous at_second).2) = []
  /\ (next (two_tracks sequential 0)).1 = Some "T2".
Proof. evaluate. Qed.

(** C10: [add_directory] with [top] and [recurse] set and [surpress_emit]
    cleared adds both songs of the tree and returns both ids, but only the
    song of the top directory gets its [song_added]; the song of the
    sub-directory is announced by no signal at all. *)
Theorem add_directory_forgets_subdirectory_songs :
  (add_directory music true true false (two_tracks sequential 0)).1
  = returned (3, ["music/b.mp3"; "music/sub/a.mp3"])
  /\ queue (base (add_directory music true true false (two_tracks sequential 0)).2)
     = ["T1"; "T2"; "music/b.mp3"; "music/sub/a.mp3"]
  /\ emitted (add_directory music true true false (two_tracks sequential 0)).2
     = [song_added "music/b.mp3"].
Proof. evaluate. Qed.

(** The tick of Scenario C repeats T1. *)
Lemma tick_loop_single_repeats_witness :
  play_mode (base scenario_C_end) = loop_single
  /\ emitted (tick scenario_C_end)
     = emitted scenario_C_end ++ [song_changed "T1"; ticked]
  /\ queue_position (base (tick scenario_C_end)) = 0
  /\ current (base (tick scenario_C_end)) = Some "T1".
Proof.
  destruct (tick_loop_single_repeats scenario_C_end "T1")
    as (_ & Hsig & _ & Hpos & Hcur & _); [evaluate ..|].
  split; [reflexivity|]. split; [exact Hsig|]. split; [exact Hpos | exact Hcur].
Defined.

(** The second tick of Scenario B promotes T2. *)
Lemma tick_completes_fade_witness :
  fadein_song (base scenario_B_end) = Some "T2"
  /\ current (base (tick scenario_B_end)) = Some "T2"
  /\ fadein_song (base (tick scenario_B_end)) = None
  /\ queue_position (base (tick scenario_B_end)) = 1.
Proof.
  destruct (tick_completes_fade scenario_B_end "T1" "T2")
    as (_ & Hcur & Hfad & Hpos & _); [evaluate ..|].
  split; [reflexivity|]. split; [exact Hcur|]. split; [exact Hfad | exact Hpos].
Defined.

(** The first tick of Scenario B starts T2. *)
Lemma tick_begins_fade_witness :
  upcoming (base scenario_B_window) = Some "T2"
  /\ fadein_song (base (tick scenario_B_window)) = Some "T2"
  /\ current (base (tick scenario_B_window)) = Some "T1"
  /\ emitted (tick scenario_B_window) = emitted scenario_B_window ++ [ticked].
Proof.
  destruct (tick_begins_fade scenario_B_window "T1" "T2")
    as (Hfad & _ & _ & Hcur & _ & Hsig); [evaluate ..| |].
  - vm_compute. intros [H _]. discriminate H.
  - split; [reflexivity|]. split; [exact Hfad|]. split; [exact Hcur | exact Hsig].
Defined.

(** Scenario B, from the tick that starts the fade on: T2 fades in until the
    next tick, which promotes it. *)
Lemma one_fade_in_flight_witness :
  fadein_song (base (tick scenario_B_window)) = Some "T2"
  /\ exists k : nat,
       (k <= length [played_to "T1" 0 0])%nat
       /\ (forall j : nat, (j <= k)%nat ->
             fadein_song
               (base (run_ticks (take j [played_to "T1" 0 0]) (tick scenario_B_window)))
             = Some "T2")
       /\ (k = length [played_to "T1" 0 0]
           \/ (fadein_song
                 (base (run_ticks (take (S k) [played_to "T1" 0 0])
                          (tick scenario_B_window)))
               = None
               /\ current
                    (base (run_ticks (take (S k) [played_to "T1" 0 0])
                             (tick scenario_B_window)))
                  = Some "T2")).
Proof.
  split; [reflexivity|].
  apply (one_fade_in_flight spec_base_next_is_resolution); reflexivity.
Defined.


(** Scenario A: two more [play()] calls while T1 plays. *)
Lemma play_twice_while_playing_witness :
  emitted (play (play scenario_A))
  = emitted scenario_A ++ [music_playing "T1"; music_playing "T1"].
Proof.
  apply (play_twice_while_playing scenario_A "T1" spec_base_play_resumes);
    reflexivity.
Defined.

End OnSpecBase.

(** ** More on the tick *)

Section TickRuns.
Context {B : PlaylistBase}.

Ltac tick_branches :=
  unfold tick, next; repeat case_match; simplify_eq/=.

Lemma tick_idle (s : Pys2Playlist) :
  current (base s) = None -> tick s = ticker_stop s.
Proof. intros Hcur. unfold tick. rewrite Hcur. reflexivity. Qed.

(** X5: a tick never starts the timer: it leaves the timer as it was when it
    finds a current song, whichever branch it takes, and stops it when it
    finds none. *)
Theorem tick_never_starts_timer (s : Pys2Playlist) :
  ticker_active (tick s)
  = match current (base s) with
    | Some _ => ticker_active s
    | None => false
    end.
Proof. tick_branches; reflexivity. Qed.

(** X4: a tick leaves a song that still has data alone: outside the fade
    window, or inside it when a song is fading in already or none is
    upcoming, the tick makes no handle call, changes nothing in the playlist
    and emits [ticked] only. *)
Theorem tick_leaves_playing_song_alone (s : Pys2Playlist) (cur : SongId) :
  current (base s) = Some cur ->
  0 < remaining_bytes (songs (base s) cur) ->
  (0 < fade_in (base s) ->
   remaining_seconds (songs (base s) cur) <= fade_in (base s) ->
   fadein_song (base s) <> None \/ upcoming (base s) = None) ->
  tick s = emit ticked s.
Proof.
  intros Hcur Hrem Hwindow.
  unfold tick. rewrite Hcur.
  apply Z.leb_gt in Hrem. rewrite Hrem, andb_false_r.
  destruct ((0 <? fade_in (base s))
            && (remaining_seconds (songs (base s) cur) <=? fade_in (base s)))
    eqn:Hguard; [|reflexivity].
  apply andb_true_iff in Hguard as [Hpos Hsecs].
  apply Z.ltb_lt in Hpos. apply Z.leb_le in Hsecs.
  destruct (Hwindow Hpos Hsecs) as [Hfading | Hup].
  - destruct (fadein_song (base s)); [reflexivity | contradiction].
  - destruct (fadein_song (base s)); [reflexivity|]. rewrite Hup. reflexivity.
Qed.

(** One tick in [loop_single] mode: the mode, the current song and the
    cursor stay, and the calls made are a seek or the start of a fade. *)
Lemma tick_in_loop_single (s : Pys2Playlist) :
  play_mode (base s) = loop_single ->
  play_mode (base (tick s)) = loop_single
  /\ current (base (tick s)) = current (base s)
  /\ queue_position (base (tick s)) = queue_position (base s)
  /\ exists calls,
       handle_log (base (tick s)) = handle_log (base s) ++ calls
       /\ forall t, releases t calls = 0%nat.
Proof.
  intros Hmode. unfold tick.
  destruct (current (base s)) as [cur|] eqn:Hcur.
  - rewrite (bool_decide_eq_true_2 _ Hmode). simpl.
    destruct (remaining_bytes (songs (base s) cur) <=? 0).
    + simpl. repeat split; try assumption.
      eexists. split; [reflexivity|]. intros t. apply releases_other. discriminate.
    + destruct ((0 <? fade_in (base s))
                && (remaining_seconds (songs (base s) cur) <=? fade_in (base s))).
      * destruct (fadein_song (base s)); [|destruct (upcoming (base s))]; simpl;
          repeat split; try assumption;
          first [ exists []; rewrite app_nil_r; split; [reflexivity | reflexivity]
                | eexists; split; [reflexivity|];
                  intros t; apply releases_other; discriminate ].
      * simpl. repeat split; try assumption.
        exists []. rewrite app_nil_r. split; reflexivity.
  - simpl. repeat split; try assumption.
    exists []. rewrite app_nil_r. split; reflexivity.
Qed.

(** X7: in [loop_single] mode no run of ticks, with the backend moving the
    tracks on in between, ever changes the current song, the cursor or the
    mode, and no track is released. *)
Theorem loop_single_never_advances
    (progress : list ((SongId -> Song) -> SongId -> Song)) (s : Pys2Playlist) :
  play_mode (base s) = loop_single ->
  play_mode (base (run_ticks progress s)) = loop_single
  /\ current (base (run_ticks progress s)) = current (base s)
  /\ queue_position (base (run_ticks progress s)) = queue_position (base s)
  /\ exists calls,
       handle_log (base (run_ticks progress s)) = handle_log (base s) ++ calls
       /\ forall t, releases t calls = 0%nat.
Proof.
  revert s. induction progress as [|p rest IH]; intros s Hmode; simpl.
  - repeat split; try assumption. exists []. rewrite app_nil_r. split; reflexivity.
  - set (s0 := on_base (fun c => set_songs (p (songs c)) c) s).
    destruct (tick_in_loop_single s0 Hmode)
      as (Hmode1 & Hcur1 & Hpos1 & calls1 & Hlog1 & Hfree1).
    destruct (IH (tick s0) Hmode1) as (Hmode2 & Hcur2 & Hpos2 & calls2 & Hlog2 & Hfree2).
    split; [exact Hmode2|]. split; [rewrite Hcur2, Hcur1; reflexivity|].
    split; [rewrite Hpos2, Hpos1; reflexivity|].
    exists (calls1 ++ calls2). split.
    + rewrite Hlog2, Hlog1, <- app_assoc. reflexivity.
    + intros t. rewrite releases_app, Hfree1, Hfree2. reflexivity.
Qed.

(** X6: the cross-fade, from start to hand-over.  Outside [loop_single] mode,
    a tick inside the fade window with no song fading in and [up] upcoming
    starts [up]; when the backend has then played the current song out, still
    inside the window, the next tick stops and releases it and makes [up]
    current.  Over the two ticks the cursor moves by one, [song_changed] is
    emitted once, and [fadein_song] is unset again. *)
Theorem crossfade_hands_over (s : Pys2Playlist) (cur up : SongId)
    (p : (SongId -> Song) -> SongId -> Song) :
  play_mode (base s) <> loop_single ->
  current (base s) = Some cur ->
  fadein_song (base s) = None ->
  upcoming (base s) = Some up ->
  0 < fade_in (base s) ->
  remaining_seconds (songs (base s) cur) <= fade_in (base s) ->
  remaining_seconds (p (songs (base (tick s))) cur) <= fade_in (base s) ->
  remaining_bytes (p (songs (base (tick s))) cur) <= 0 ->
  fadein_song (base (tick s)) = Some up
  /\ current (base (run_ticks [p] (tick s))) = Some up
  /\ fadein_song (base (run_ticks [p] (tick s))) = None
  /\ queue_position (base (run_ticks [p] (tick s))) = queue_position (base s) + 1
  /\ handle_log (base (run_ticks [p] (tick s)))
     = handle_log (base s) ++ [(up, h_play); (cur, h_stop); (cur, h_free_stream)]
  /\ emitted (run_ticks [p] (tick s))
     = emitted s ++ [ticked; song_changed up; ticked].
Proof.
  intros Hmode Hcur Hfading Hup Hpos Hsecs.
  assert (Hfirst : tick s
            = emit ticked (on_base (call up h_play)
                             (on_base (set_fadein_song (Some up)) s))).
  { unfold tick. rewrite Hcur, (bool_decide_eq_false_2 _ Hmode).
    apply Z.ltb_lt in Hpos. apply Z.leb_le in Hsecs.
    rewrite Hpos, Hsecs, Hfading, Hup. reflexivity. }
  rewrite Hfirst. simpl. intros Hsecs2 Hrem2.
  split; [reflexivity|].
  unfold tick. simpl. rewrite Hcur, (bool_decide_eq_false_2 _ Hmode).
  apply Z.ltb_lt in Hpos. apply Z.leb_le in Hsecs2. apply Z.leb_le in Hrem2.
  rewrite Hpos, Hsecs2, Hrem2. simpl.
  rewrite <- !app_assoc. simpl.
  repeat split; reflexivity.
Qed.

End TickRuns.

Section TickContract.
Context {B : PlaylistBase}.
Hypothesis next_resolves : next_is_resolution B.

(** X2: the end of a track.  Outside the repeat rule and the fade window, a
    tick that finds no data left in the current song and a next song in the
    queue stops and releases the current song, makes the next one current,
    starts it and moves the cursor by one; [fadein_song] is left as it was.
    [song_changed] is emitted for the new song by [next()] and once more by
    the tick itself. *)
Theorem tick_advances_to_next (s : Pys2Playlist) (cur nxt : SongId) :
  current (base s) = Some cur ->
  play_mode (base s) <> loop_single ->
  ~ (0 < fade_in (base s)
     /\ remaining_seconds (songs (base s) cur) <= fade_in (base s)) ->
  remaining_bytes (songs (base s) cur) <= 0 ->
  (super_next (call cur h_free_stream (call cur h_stop (base s)))).1 = Some nxt ->
  current (base (tick s)) = Some nxt
  /\ queue_position (base (tick s)) = queue_position (base s) + 1
  /\ fadein_song (base (tick s)) = fadein_song (base s)
  /\ handle_log (base (tick s))
     = handle_log (base s) ++ [(cur, h_stop); (cur, h_free_stream); (nxt, h_play)]
  /\ is_playing (songs (base (tick s)) nxt) = true
  /\ emitted (tick s) = emitted s ++ [song_changed nxt; song_changed nxt; ticked].
Proof.
  intros Hcur Hmode Hwindow Hrem Hnext.
  unfold tick, next. rewrite Hcur, (bool_decide_eq_false_2 _ Hmode).
  assert (Hguard : (0 <? fade_in (base s))
                   && (remaining_seconds (songs (base s) cur) <=? fade_in (base s))
                   = false).
  { apply not_true_is_false. intros Htrue. apply Hwindow.
    apply andb_true_iff in Htrue as [H1 H2].
    split; [apply Z.ltb_lt, H1 | apply Z.leb_le, H2]. }
  apply Z.leb_le in Hrem. rewrite Hguard, Hrem. simpl in *.
  match goal with |- context [super_next ?c] =>
    pose proof (next_handle_log B next_resolves c) as Hlog;
    pose proof (next_fadein_song B next_resolves c) as Hfade;
    pose proof (next_queue_position B next_resolves c) as Hqp;
    destruct (super_next c) as [result b]
  end.
  simpl in *. subst result. simpl.
  rewrite Hlog, Hfade, Hqp, fn_lookup_insert, <- !app_assoc. simpl.
  repeat split; reflexivity.
Qed.

(** X3: the end of the playlist.  When the current song has run out and the
    queue resolves no next song, the tick stops and releases the song and
    leaves no current song; it emits [ticked] and no [song_changed], and the
    cursor stays.  The tick after that, whatever the backend did meanwhile,
    stops the timer and emits nothing. *)
Theorem tick_finishes_playlist (s : Pys2Playlist) (cur : SongId)
    (p : (SongId -> Song) -> SongId -> Song) :
  current (base s) = Some cur ->
  play_mode (base s) <> loop_single ->
  ~ (0 < fade_in (base s)
     /\ remaining_seconds (songs (base s) cur) <= fade_in (base s)) ->
  remaining_bytes (songs (base s) cur) <= 0 ->
  (super_next (call cur h_free_stream (call cur h_stop (base s)))).1 = None ->
  current (base (tick s)) = None
  /\ queue_position (base (tick s)) = queue_position (base s)
  /\ handle_log (base (tick s))
     = handle_log (base s) ++ [(cur, h_stop); (cur, h_free_stream)]
  /\ emitted (tick s) = emitted s ++ [ticked]
  /\ emitted (run_ticks [p] (tick s)) = emitted (tick s)
  /\ ticker_active (run_ticks [p] (tick s)) = false.
Proof.
  intros Hcur Hmode Hwindow Hrem Hnext.
  assert (Hnone : current (base (tick s)) = None
                  /\ queue_position (base (tick s)) = queue_position (base s)
                  /\ handle_log (base (tick s))
                     = handle_log (base s) ++ [(cur, h_stop); (cur, h_free_stream)]
                  /\ emitted (tick s) = emitted s ++ [ticked]).
  { unfold tick, next. rewrite Hcur, (bool_decide_eq_false_2 _ Hmode).
    assert (Hguard : (0 <? fade_in (base s))
                     && (remaining_seconds (songs (base s) cur) <=? fade_in (base s))
                     = false).
    { apply not_true_is_false. intros Htrue. apply Hwindow.
      apply andb_true_iff in Htrue as [H1 H2].
      split; [apply Z.ltb_lt, H1 | apply Z.leb_le, H2]. }
    apply Z.leb_le in Hrem. rewrite Hguard, Hrem. simpl in *.
    match goal with |- context [super_next ?c] =>
      pose proof (next_handle_log B next_resolves c) as Hlog;
      pose proof (next_queue_position B next_resolves c) as Hqp;
      destruct (super_next c) as [result b]
    end.
    simpl in *. subst result. simpl.
    rewrite Hlog, Hqp, <- !app_assoc. simpl. repeat split; reflexivity. }
  destruct Hnone as (Hgone & Hqp & Hlog & Hsig).
  repeat (split; [assumption|]).
  simpl. rewrite tick_idle by exact Hgone. split; reflexivity.
Qed.

(** X8: with fading disabled ([fade_in] not above 0) a tick never touches
    [fadein_song]. *)
Theorem tick_without_fade_window (s : Pys2Playlist) :
  fade_in (base s) <= 0 ->
  fadein_song (base (tick s)) = fadein_song (base s).
Proof.
  intros Hoff. apply Z.ltb_ge in Hoff.
  unfold tick, next. rewrite Hoff.
  destruct (current (base s)) as [cur|]; [|reflexivity].
  destruct (bool_decide (play_mode (base s) = loop_single)
            && (remaining_bytes (songs (base s) cur) <=? 0)); [reflexivity|].
  simpl. destruct (remaining_bytes (songs (base s) cur) <=? 0); [|reflexivity].
  match goal with |- context [super_next ?c] =>
    pose proof (next_fadein_song B next_resolves c) as Hfade;
    destruct (super_next c) as [[nxt|] b]
  end; simpl in *; exact Hfade.
Qed.

End TickContract.

(** ** More on the controller *)

Section PlayStart.
Context {B : PlaylistBase}.

(** X9: starting fresh.  When there is no current song and the superclass
    makes [c] current and playing, [play()] emits [music_playing] and then
    [song_changed] for [c], in this order, and starts the timer. *)
Theorem play_fresh_start (s : Pys2Playlist) (c : SongId) :
  current (base s) = None ->
  current (super_play (base s)) = Some c ->
  is_playing (songs (super_play (base s)) c) = true ->
  emitted (play s) = emitted s ++ [music_playing c; song_changed c]
  /\ ticker_active (play s) = true
  /\ current (base (play s)) = Some c.
Proof.
  intros Hnone Hcur Hplaying.
  split; [|split].
  - rewrite play_emitted, Hcur, Hplaying, Hnone. reflexivity.
  - unfold play. simpl. rewrite Hcur, Hplaying. simpl. rewrite Hcur, Hnone.
    reflexivity.
  - rewrite play_base. exact Hcur.
Qed.

(** X10: [play()] and the timer.  [play()] starts the timer exactly when a
    song is current and playing after the superclass call, and never stops
    it; when the superclass finds nothing to play, [play()] emits no signal
    and leaves the timer as it was. *)
Theorem play_timer_and_silence (s : Pys2Playlist) :
  ticker_active (play s)
  = ticker_active s
    || match current (super_play (base s)) with
       | Some c => is_playing (songs (super_play (base s)) c)
       | None => false
       end
  /\ match current (super_play (base s)) with
     | Some _ => True
     | None => emitted (play s) = emitted s
     end.
Proof.
  unfold play. simpl.
  destruct (current (super_play (base s))) as [c|] eqn:Hc; simpl.
  - destruct (is_playing (songs (super_play (base s)) c)); simpl; rewrite Hc;
      destruct (bool_decide (current (base s) = None)); simpl;
      rewrite ?orb_true_r, ?orb_false_r; split; trivial.
  - rewrite Hc, orb_false_r. split; reflexivity.
Qed.

End PlayStart.

Section ControlProps.
Context {B : PlaylistBase} {K : PlaylistControls}.

(** X18: [play_song_by_index] and [play_song_by_id] behave alike.  When the
    superclass fails, the error goes to the caller and no signal is emitted;
    when it returns [None], the call fails with [AttributeError], again
    without a signal; when it returns a song, [song_changed] and then
    [music_playing] are emitted for it, whether it is playing or not, and the
    timer is not touched. *)
Theorem play_song_by_target_outcome (song_index : Z) (song_id : SongId)
    (s : Pys2Playlist) :
  match (super_play_song_by_index song_index s).1 with
  | completed (Some id) =>
      (play_song_by_index song_index s).1 = completed id
      /\ emitted (play_song_by_index song_index s).2
         = emitted (super_play_song_by_index song_index s).2
           ++ [song_changed id; music_playing id]
      /\ ticker_active (play_song_by_index song_index s).2
         = ticker_active (super_play_song_by_index song_index s).2
  | completed None =>
      play_song_by_index song_index s
      = (failed AttributeError, (super_play_song_by_index song_index s).2)
  | failed e =>
      play_song_by_index song_index s
      = (failed e, (super_play_song_by_index song_index s).2)
  end
  /\ match (super_play_song_by_id song_id s).1 with
     | completed (Some id) =>
         (play_song_by_id song_id s).1 = completed id
         /\ emitted (play_song_by_id song_id s).2
            = emitted (super_play_song_by_id song_id s).2
              ++ [song_changed id; music_playing id]
         /\ ticker_active (play_song_by_id song_id s).2
            = ticker_active (super_play_song_by_id song_id s).2
     | completed None =>
         play_song_by_id song_id s
         = (failed AttributeError, (super_play_song_by_id song_id s).2)
     | failed e =>
         play_song_by_id song_id s
         = (failed e, (super_play_song_by_id song_id s).2)
     end.
Proof.
  unfold play_song_by_index, play_song_by_id.
  destruct (super_play_song_by_index song_index s) as [[[id|]|e] s1];
    destruct (super_play_song_by_id song_id s) as [[[id'|]|e'] s2]; simpl;
    rewrite <- ?app_assoc; repeat split; reflexivity.
Qed.

(** X19: [play_first] on an empty playlist (the superclass returns [None])
    returns [None] and emits nothing; otherwise it returns the song and emits
    [song_changed] and then [music_playing] for it.  It never touches the
    timer. *)
Theorem play_first_outcome (s : Pys2Playlist) :
  (play_first s).1 = (super_play_first s).1
  /\ ticker_active (play_first s).2 = ticker_active (super_play_first s).2
  /\ base (play_first s).2 = base (super_play_first s).2
  /\ emitted (play_first s).2
     = emitted (super_play_first s).2
       ++ match (super_play_first s).1 with
          | Some id => [song_changed id; music_playing id]
          | None => []
          end.
Proof.
  unfold play_first.
  destruct (super_play_first s) as [[id|] s1]; simpl;
    rewrite <- ?app_assoc, ?app_nil_r; repeat split; reflexivity.
Qed.

(** X20: [stop()] and [pause()] always halt the timer, also when there is no
    current song, and emit one signal at most: [music_stopped] or
    [music_paused] for the song that is current after the superclass call.  A
    tick that still fires afterwards never restarts the timer, and when no
    song is current any more it changes nothing at all. *)
Theorem stop_and_pause_halt_timer (s : Pys2Playlist) :
  ticker_active (stop s) = false
  /\ ticker_active (pause s) = false
  /\ emitted (stop s)
     = emitted (super_stop s)
       ++ match current (base (super_stop s)) with
          | Some c => [music_stopped c]
          | None => []
          end
  /\ emitted (pause s)
     = emitted (super_pause s)
       ++ match current (base (super_pause s)) with
          | Some c => [music_paused c]
          | None => []
          end
  /\ ticker_active (tick (stop s)) = false
  /\ ticker_active (tick (pause s)) = false
  /\ (current (base (stop s)) = None -> tick (stop s) = stop s)
  /\ (current (base (pause s)) = None -> tick (pause s) = pause s).
Proof.
  assert (Hoff : forall s0, ticker_active s0 = false ->
                            ticker_active (tick s0) = false).
  { intros s0 H0. unfold tick, next. repeat case_match; simplify_eq/=; done. }
  split; [reflexivity|]. split; [reflexivity|].
  split; [unfold stop; destruct (current (base (super_stop s))); simpl;
          rewrite ?app_nil_r; reflexivity|].
  split; [unfold pause; destruct (current (base (super_pause s))); simpl;
          rewrite ?app_nil_r; reflexivity|].
  split; [apply Hoff; reflexivity|].
  split; [apply Hoff; reflexivity|].
  split; intros Hnone; rewrite tick_idle by exact Hnone; reflexivity.
Qed.

End ControlProps.

(** ** More on importing a directory *)

Section DirectoryWalk.
Context {B : PlaylistBase}.

(** The loop over the files lets no [TypeError] out. *)
Lemma add_files_catches_TypeError (entries : list DirEntry) (surpress_emit : bool)
    (song_ids : list SongId) (s : Pys2Playlist) (e : Exn) :
  (add_files entries surpress_emit song_ids s).1 = raised e -> e <> TypeError.
Proof.
  revert song_ids s.
  induction entries as [|entry rest IH]; intros song_ids s; simpl; [discriminate|].
  destruct entry as [path suffix | path children | path]; try apply IH.
  case_bool_decide; [|apply IH].
  destruct (add_song path surpress_emit s) as [[[id|]|e0] s1]; simpl; try apply IH.
  destruct e0; simpl; try apply IH; intros [= <-]; discriminate.
Qed.

Lemma add_subdirectories_raises
    (walk : DirEntry -> Pys2Playlist -> Result (Z * list SongId) * Pys2Playlist)
    (entries : list DirEntry) (e : Exn) :
  Forall (fun d => forall s, (walk d s).1 = raised e -> e <> TypeError) entries ->
  forall song_ids s,
    (add_subdirectories walk entries song_ids s).1 = raised e -> e <> TypeError.
Proof.
  induction 1 as [|d rest Hd _ IH]; intros song_ids s; simpl; [discriminate|].
  destruct d as [path suffix | path children | path]; try apply IH.
  specialize (Hd s).
  destruct (walk (fs_dir path children) s) as [[[i sub]|e0] s1]; simpl in *.
  - apply IH.
  - intros [= ->]. apply Hd. reflexivity.
Qed.

(** No [TypeError] of [add_song] leaves [add_directory], at any depth of the
    walk. *)
Lemma add_directory_lets_no_TypeError_out (d : DirEntry)
    (recurse top surpress_emit : bool) (s : Pys2Playlist) (e : Exn) :
  (add_directory d recurse top surpress_emit s).1 = raised e -> e <> TypeError.
Proof.
  revert recurse top surpress_emit s.
  induction d as [path suffix | path | path children IH] using DirEntry_tree_ind;
    intros recurse top surpress_emit s; simpl;
    try (intros [= <-]; discriminate).
  pose proof (add_files_catches_TypeError children surpress_emit [] s e) as Hfiles.
  destruct (add_files children surpress_emit [] s) as [[song_ids|e0] s1]; simpl in *;
    [|intros [= ->]; apply Hfiles; reflexivity].
  destruct recurse; simpl; [|discriminate].
  assert (Hall : Forall (fun d => forall s0,
                   (add_directory d true false true s0).1 = raised e ->
                   e <> TypeError) children).
  { clear -IH. induction IH as [|d rest Hd _ IHrest]; [constructor|].
    constructor; [intros s0; apply Hd | exact IHrest]. }
  pose proof (add_subdirectories_raises
                (fun fdir s0 => add_directory fdir true false true s0)
                children e Hall song_ids s1) as Hsub.
  destruct (add_subdirectories _ children song_ids s1) as [[ids|e1] s2];
    simpl in *; [discriminate | intros [= ->]; apply Hsub; reflexivity].
Qed.

(** X14: the file loop of [add_directory] (lines 71-77) and a failing
    [add_song].  When [add_song] raises [TypeError] for a file, the loop goes
    on with the files after it, from the state [add_song] left and with the
    ids collected so far; when [add_song] raises anything else, the loop ends
    there with that exception.  So, for a [dir_path] that is a path already,
    no [TypeError] of [add_song] leaves [add_directory], at any depth of the
    walk. *)
Theorem add_files_skips_TypeError_file :
  (forall (song_path suffix : string) (rest : list DirEntry) (surpress_emit : bool)
          (song_ids : list SongId) (s : Pys2Playlist),
      suffix ∈ VALID_TYPES (base s) ->
      (add_song song_path surpress_emit s).1 = raised TypeError ->
      add_files (fs_file song_path suffix :: rest) surpress_emit song_ids s
      = add_files rest surpress_emit song_ids (add_song song_path surpress_emit s).2)
  /\ (forall (song_path suffix : string) (rest : list DirEntry) (surpress_emit : bool)
             (song_ids : list SongId) (s : Pys2Playlist) (e : Exn),
         suffix ∈ VALID_TYPES (base s) ->
         (add_song song_path surpress_emit s).1 = raised e ->
         e <> TypeError ->
         add_files (fs_file song_path suffix :: rest) surpress_emit song_ids s
         = (raised e, (add_song song_path surpress_emit s).2))
  /\ (forall (d : DirEntry) (recurse top surpress_emit : bool) (s : Pys2Playlist)
             (e : Exn),
         (add_directory d recurse top surpress_emit s).1 = raised e ->
         e <> TypeError).
Proof.
  split; [|split].
  - intros song_path suffix rest surpress_emit song_ids s Hvalid Hraise. simpl.
    rewrite (bool_decide_eq_true_2 _ Hvalid).
    destruct (add_song song_path surpress_emit s) as [r s1]. simpl in Hraise.
    subst r. reflexivity.
  - intros song_path suffix rest surpress_emit song_ids s e Hvalid Hraise Hother.
    simpl. rewrite (bool_decide_eq_true_2 _ Hvalid).
    destruct (add_song song_path surpress_emit s) as [r s1]. simpl in Hraise.
    subst r. destruct e; [contradiction | reflexivity | reflexivity].
  - intros d recurse top surpress_emit s e.
    apply add_directory_lets_no_TypeError_out.
Qed.

(** X13: the index position that [add_directory] returns is fixed before
    anything is added: the length of the playlist plus one when [top] is
    set, and -1 otherwise. *)
Theorem add_directory_index_position (d : DirEntry)
    (recurse top surpress_emit : bool) (s : Pys2Playlist)
    (index_position : Z) (song_ids : list SongId) :
  (add_directory d recurse top surpress_emit s).1
  = returned (index_position, song_ids) ->
  index_position = if top then base_len (base s) + 1 else -1.
Proof.
  destruct d as [path suffix | path children | path]; simpl; try discriminate.
  destruct (add_files children surpress_emit [] s) as [[ids|e] s1]; simpl;
    [|discriminate].
  destruct (if recurse then _ else _) as [[ids2|e] s2]; simpl; congruence.
Qed.

(** X17: called with its defaults for [top] and [surpress_emit] ([False] and
    [True]), as the recursive call does, [add_directory] emits no signal at
    all, however many songs it adds and however deep the tree is. *)
Theorem add_directory_default_walk_is_silent (d : DirEntry) (recurse : bool)
    (s : Pys2Playlist) :
  signals_since s (add_directory d recurse false true s).2 = [].
Proof.
  unfold signals_since. rewrite add_directory_nested_silent. apply drop_all.
Qed.

(** X15: with [top] and [surpress_emit] both set, a call that returns emits
    exactly one signal, the aggregate [songs_added] with the index position
    and the ids it returns; a call that raises emits nothing. *)
Theorem add_directory_suppressed_aggregate (d : DirEntry) (recurse : bool)
    (s : Pys2Playlist) :
  signals_since s (add_directory d recurse true true s).2
  = match (add_directory d recurse true true s).1 with
    | returned (index_position, song_ids) => [songs_added index_position song_ids]
    | raised _ => []
    end.
Proof.
  unfold signals_since.
  destruct d as [path suffix | path children | path];
    try (simpl; apply drop_all).
  rewrite add_directory_emitted, add_files_silent.
  rewrite drop_app_length.
  destruct (add_directory (fs_dir path children) recurse true true s).1
    as [[i ids]|e]; reflexivity.
Qed.

Lemma count_song_added_only (ids : list SongId) :
  count_signals is_songs_added (song_added <$> ids) = 0%nat.
Proof. induction ids as [|id rest IH]; [reflexivity | exact IH]. Qed.

(** X21: whatever the flags and the tree, a call of [add_directory] emits
    the aggregate [songs_added] once when it returns with [top] and
    [surpress_emit] both set, and never otherwise: not without [top], not
    without [surpress_emit], and not when it raises. *)
Theorem add_directory_aggregate_count (d : DirEntry)
    (recurse top surpress_emit : bool) (s : Pys2Playlist) :
  count_signals is_songs_added
    (signals_since s (add_directory d recurse top surpress_emit s).2)
  = match (add_directory d recurse top surpress_emit s).1 with
    | returned _ => if top && surpress_emit then 1%nat else 0%nat
    | raised _ => 0%nat
    end.
Proof.
  unfold signals_since.
  destruct d as [path suffix | path children | path];
    try (simpl; rewrite drop_all; reflexivity).
  rewrite add_directory_emitted.
  assert (Hfiles : exists added,
            emitted (add_files children surpress_emit [] s).2
            = emitted s ++ (song_added <$> added)).
  { destruct surpress_emit.
    - exists []. rewrite add_files_silent, app_nil_r. reflexivity.
    - destruct (add_files_announces children [] s) as (added & Hsig & _).
      exists added. exact Hsig. }
  destruct Hfiles as (added & ->).
  rewrite <- app_assoc, drop_app_length.
  unfold count_signals. rewrite List.filter_app, length_app.
  fold (count_signals is_songs_added (song_added <$> added)).
  rewrite count_song_added_only.
  destruct (add_directory (fs_dir path children) recurse top surpress_emit s).1
    as [[i ids]|e]; [|reflexivity].
  destruct (top && surpress_emit); reflexivity.
Qed.

(** X16: without recursion and without suppression, a call that returns has
    emitted one [song_added] for each id it returns, in the order of the ids,
    and nothing else. *)
Theorem add_directory_flat_announces (d : DirEntry) (top : bool)
    (s : Pys2Playlist) (index_position : Z) (song_ids : list SongId) :
  (add_directory d false top false s).1 = returned (index_position, song_ids) ->
  signals_since s (add_directory d false top false s).2
  = song_added <$> song_ids.
Proof.
  destruct d as [path suffix | path children | path]; try discriminate.
  intros Hret. unfold signals_since.
  rewrite add_directory_emitted, Hret, andb_false_r, app_nil_r.
  destruct (add_files_announces children [] s) as (added & Hsig & Hids).
  rewrite Hsig, drop_app_length.
  simpl in Hret.
  destruct (add_files children false [] s) as [[ids|e] s1]; simpl in *;
    [|discriminate].
  injection Hret as _ <-. rewrite (Hids ids eq_refl). reflexivity.
Qed.

End DirectoryWalk.

(** ** The further properties on the superclass of the specification *)

Section MoreOnSpecBase.
Import SpecBase SpecControls Scenario MoreScenarios.
#[local] Existing Instance spec_base.
#[local] Existing Instance spec_controls.

Ltac evaluate :=
  vm_compute; repeat split; try reflexivity; try discriminate;
  try (let H := fresh in intros H; discriminate H);
  try (let H := fresh in intros [H _]; discriminate H).

(** Scenario A: the tick that ends T1 takes the cursor from 0 to 1. *)
Lemma tick_cursor_step_witness :
  queue_position (base (tick scenario_A_end)) = queue_position (base scenario_A_end)
  \/ queue_position (base (tick scenario_A_end))
     = queue_position (base scenario_A_end) + 1.
Proof. apply (tick_cursor_step spec_base_next_is_resolution). Defined.

(** Scenario A: T1 has run out and T2 is next. *)
Lemma tick_advances_to_next_witness :
  current (base (tick scenario_A_end)) = Some "T2"
  /\ queue_position (base (tick scenario_A_end)) = 1
  /\ handle_log (base (tick scenario_A_end))
     = handle_log (base scenario_A_end)
       ++ [("T1", h_stop); ("T1", h_free_stream); ("T2", h_play)].
Proof.
  destruct (tick_advances_to_next spec_base_next_is_resolution scenario_A_end "T1" "T2")
    as (Hcur & Hpos & _ & Hlog & _); [evaluate ..|].
  split; [exact Hcur|]. split; [exact Hpos | exact Hlog].
Defined.

(** Scenario A: T2, the last song, has run out. *)
Lemma tick_finishes_playlist_witness :
  current (base (tick scenario_A_last)) = None
  /\ emitted (tick scenario_A_last) = emitted scenario_A_last ++ [ticked]
  /\ ticker_active (run_ticks [fun h => h] (tick scenario_A_last)) = false.
Proof.
  destruct (tick_finishes_playlist spec_base_next_is_resolution scenario_A_last "T2"
              (fun h => h))
    as (Hcur & _ & _ & Hsig & _ & Hoff); [evaluate ..|].
  split; [exact Hcur|]. split; [exact Hsig | exact Hoff].
Defined.

(** Scenario A: T1 has a second left to play. *)
Lemma tick_leaves_playing_song_alone_witness :
  tick scenario_A_middle = emit ticked scenario_A_middle.
Proof.
  apply (tick_leaves_playing_song_alone scenario_A_middle "T1"); evaluate.
Defined.

(** Scenario C over three ticks, T1 running out again before each. *)
Lemma loop_single_never_advances_witness :
  current (base (run_ticks [played_to "T1" 0 0; played_to "T1" 0 0; played_to "T1" 0 0]
                   scenario_C_end))
  = Some "T1"
  /\ queue_position
       (base (run_ticks [played_to "T1" 0 0; played_to "T1" 0 0; played_to "T1" 0 0]
                scenario_C_end))
     = 0.
Proof.
  destruct (loop_single_never_advances
              [played_to "T1" 0 0; played_to "T1" 0 0; played_to "T1" 0 0]
              scenario_C_end)
    as (_ & Hcur & Hpos & _); [reflexivity|].
  split; [exact Hcur | exact Hpos].
Defined.

(** Scenario B from its first tick to the hand-over. *)
Lemma crossfade_hands_over_witness :
  current (base (run_ticks [played_to "T1" 0 0] (tick scenario_B_window))) = Some "T2"
  /\ queue_position (base (run_ticks [played_to "T1" 0 0] (tick scenario_B_window))) = 1
  /\ emitted (run_ticks [played_to "T1" 0 0] (tick scenario_B_window))
     = emitted scenario_B_window ++ [ticked; song_changed "T2"; ticked].
Proof.
  destruct (crossfade_hands_over scenario_B_window "T1" "T2" (played_to "T1" 0 0))
    as (_ & Hcur & _ & Hpos & _ & Hsig); [evaluate ..|].
  split; [exact Hcur|]. split; [exact Hpos | exact Hsig].
Defined.

(** Scenario A has fading disabled. *)
Lemma tick_without_fade_window_witness :
  fadein_song (base (tick scenario_A_end)) = fadein_song (base scenario_A_end).
Proof.
  apply (tick_without_fade_window spec_base_next_is_resolution). evaluate.
Defined.

(** Scenario A: [play()] on the fresh playlist. *)
Lemma play_fresh_start_witness :
  emitted (play (two_tracks sequential 0)) = [music_playing "T1"; song_changed "T1"]
  /\ ticker_active (play (two_tracks sequential 0)) = true.
Proof.
  destruct (play_fresh_start (two_tracks sequential 0) "T1") as (Hsig & Hon & _);
    [reflexivity ..|].
  split; [exact Hsig | exact Hon].
Defined.

(** A tick after [stop()] on a playlist that plays nothing. *)
Lemma stop_and_pause_halt_timer_witness :
  tick (stop (two_tracks sequential 0)) = stop (two_tracks sequential 0).
Proof.
  apply (stop_and_pause_halt_timer (two_tracks sequential 0)). reflexivity.
Defined.

(** A directory whose first song the superclass rejects with [TypeError]:
    the second one is imported all the same. *)
Lemma add_files_skips_TypeError_file_witness :
  (add_song (B := picky_base "music/bad.mp3") "music/bad.mp3" false
     (two_tracks sequential 0)).1 = raised TypeError
  /\ add_files (B := picky_base "music/bad.mp3")
       [fs_file "music/bad.mp3" ".mp3"; fs_file "music/c.ogg" ".ogg"] false []
       (two_tracks sequential 0)
     = add_files (B := picky_base "music/bad.mp3")
         [fs_file "music/c.ogg" ".ogg"] false []
         (add_song (B := picky_base "music/bad.mp3") "music/bad.mp3" false
            (two_tracks sequential 0)).2
  /\ (add_directory (B := picky_base "music/bad.mp3") with_rejected true true false
        (two_tracks sequential 0)).1
     = returned (3, ["music/c.ogg"]).
Proof.
  split; [reflexivity|]. split; [|reflexivity].
  apply (proj1 (add_files_skips_TypeError_file (B := picky_base "music/bad.mp3"))).
  - apply elem_of_cons. left. reflexivity.
  - reflexivity.
Defined.

(** Importing the tree of two songs into a playlist of two. *)
Lemma add_directory_index_position_witness :
  3 = (if true then base_len (base (two_tracks sequential 0)) + 1 else -1)
  /\ -1 = (if false then base_len (base (two_tracks sequential 0)) + 1 else -1).
Proof.
  split.
  - apply (add_directory_index_position music true true true (two_tracks sequential 0)
             3 ["music/b.mp3"; "music/sub/a.mp3"]).
    reflexivity.
  - apply (add_directory_index_position music true false true (two_tracks sequential 0)
             (-1) ["music/b.mp3"; "music/sub/a.mp3"]).
    reflexivity.
Defined.

(** Importing a directory of two songs, one signal each. *)
Lemma add_directory_flat_announces_witness :
  signals_since (two_tracks sequential 0)
    (add_directory flat false true false (two_tracks sequential 0)).2
  = [song_added "music/b.mp3"; song_added "music/c.ogg"].
Proof.
  apply (add_directory_flat_announces flat true (two_tracks sequential 0) 3
           ["music/b.mp3"; "music/c.ogg"]).
  reflexivity.
Defined.

(** Scenario D of the specification: index 5 on a queue of two. *)
Example play_song_by_index_out_of_range :
  play_song_by_index 5 scenario_A = (failed IndexOutOfRange, scenario_A).
Proof. reflexivity. Qed.

End MoreOnSpecBase.
